(** * canvas3d: vectors, matrices, shapes, 3D paths and the drawing interpreter

    A shallow embedding of [src/Vec.ts], [src/Mat.ts], [src/Shape.ts],
    [src/Path3D.ts] and [src/Drawing.ts], followed by the properties the
    specification states about them.

    The TypeScript code computes with the JavaScript [number] type.  The
    embedding is written over an interface of the operations the code
    applies to numbers ([JSNumber]); the code runs on its instance [jsnum],
    IEEE 754 binary64 values extended by [undefined]. *)

From Stdlib Require Import List ZArith Lia Bool PrimFloat.
From Stdlib Require String SpecFloat FloatOps FloatAxioms.
Import ListNotations.

Set Implicit Arguments.
Set Warnings "-inexact-float,-register-all".

(** ** Numbers *)

(** The values an expression of TypeScript type [number] can evaluate to,
    with the operations the sources apply to them.  [undef] is what an
    out-of-range read [v[i]] produces. *)
Class JSNumber (num : Type) : Type := {
  n0 : num;                         (* the literal 0 *)
  n1 : num;                         (* the literal 1 *)
  nadd : num -> num -> num;         (* numberField.add, x + y *)
  nmul : num -> num -> num;         (* numberField.mul, x * y *)
  nneg : num -> num;                (* unary minus *)
  strict_eq : num -> num -> bool;   (* x === y *)
  isFinite : num -> bool;           (* the global isFinite(x) *)
  undef : num                       (* undefined *)
}.

(** The part of [Math] and of the arithmetic that only the rotation
    constructors and [angle] use. *)
Class JSMath (num : Type) : Type := {
  Math_PI : num;
  Math_sin : num -> num;
  Math_cos : num -> num;
  ndiv : num -> num -> num;         (* x / y *)
  n180 : num                        (* the literal 180 *)
}.

Declare Scope num_scope.
Delimit Scope num_scope with num.
Notation "0" := n0 : num_scope.
Notation "1" := n1 : num_scope.
Notation "x + y" := (nadd x y) : num_scope.
Notation "x * y" := (nmul x y) : num_scope.
Notation "x / y" := (ndiv x y) : num_scope.
Notation "- x" := (nneg x) : num_scope.
Notation "x === y" := (strict_eq x y) (at level 70, no associativity) : num_scope.

(** *** JavaScript numbers: binary64 or [undefined] *)

Inductive jsnum : Type :=
| Num (f : float)
| Undefined.

(** ToNumber: [undefined] becomes NaN wherever arithmetic is applied. *)
Definition ToNumber (v : jsnum) : float :=
  match v with
  | Num f => f
  | Undefined => nan
  end.

Definition js_strict_eq (x y : jsnum) : bool :=
  match x, y with
  | Num a, Num b => PrimFloat.eqb a b
  | Undefined, Undefined => true
  | _, _ => false
  end.

#[export] Instance jsnum_number : JSNumber jsnum := {|
  n0 := Num 0%float;
  n1 := Num 1%float;
  nadd := fun x y => Num (ToNumber x + ToNumber y)%float;
  nmul := fun x y => Num (ToNumber x * ToNumber y)%float;
  nneg := fun x => Num (- ToNumber x)%float;
  strict_eq := js_strict_eq;
  isFinite := fun x => is_finite (ToNumber x);
  undef := Undefined
|}.

(** [Math.sin] and [Math.cos] are implementation-approximated; they stay
    parameters of the instance. *)
Definition jsnum_math (sin cos : float -> float) : JSMath jsnum := {|
  Math_PI := Num 0x1.921fb54442d18p+1%float;
  Math_sin := fun x => Num (sin (ToNumber x));
  Math_cos := fun x => Num (cos (ToNumber x));
  ndiv := fun x y => Num (ToNumber x / ToNumber y)%float;
  n180 := Num 180%float
|}.

(** ** fp-ts combinators used by the sources *)

Module FpTs.

Section Arrays.
Context {A B C : Type}.

(** [RA.isNonEmpty] *)
Definition isNonEmpty (l : list A) : bool :=
  match l with
  | [] => false
  | _ :: _ => true
  end.

(** [RA.snoc(init, end)] / [RA.append(end)(init)] *)
Definition snoc (init : list A) (e : A) : list A := init ++ [e].

(** [NEA.last] on an array; [d] stands for the [undefined] read on []. *)
Definition last_ (d : A) (l : list A) : A := List.last l d.

(** [NEA.modifyLast(f)]: the last element replaced by its image. *)
Definition modifyLast (d : A) (f : A -> A) (l : list A) : list A :=
  removelast l ++ [f (List.last l d)].

(** [NEA.updateLast(a)] is [modifyLast(() => a)]. *)
Definition updateLast (d : A) (a : A) (l : list A) : list A :=
  modifyLast d (fun _ => a) l.

(** [as.slice(0, -1)] *)
Definition slice_0_m1 (l : list A) : list A := removelast l.

(** [RA.foldLeft(onEmpty, onNonEmpty)] *)
Definition foldLeft (onEmpty : B) (onNonEmpty : A -> list A -> B)
           (l : list A) : B :=
  match l with
  | [] => onEmpty
  | h :: t => onNonEmpty h t
  end.

(** [RA.reduce(b, f)] *)
Definition reduce (b : B) (f : B -> A -> B) (l : list A) : B :=
  fold_left f l b.

(** The loop of [RNEA.zipWith] from index 1 on, up to the shorter length. *)
Fixpoint zip_rest (f : A -> B -> C) (l : list A) (r : list B) : list C :=
  match l, r with
  | a :: l', b :: r' => f a b :: zip_rest f l' r'
  | _, _ => []
  end.

(** [RNEA.zipWith(as, bs, f)]: [cs = [f(as[0], bs[0])]], then
    [cs[i] = f(as[i], bs[i])] for [1 <= i < min(as.length, bs.length)]. *)
Definition zipWith (da : A) (db : B) (l : list A) (r : list B)
           (f : A -> B -> C) : list C :=
  f (hd da l) (hd db r) :: zip_rest f (tl l) (tl r).

(** [RNEA.mapWithIndex(f)] *)
Definition mapWithIndex (f : nat -> A -> B) (l : list A) : list B :=
  map (fun ia => f (fst ia) (snd ia)) (combine (seq 0 (length l)) l).
End Arrays.

End FpTs.

(** ** Vec.ts *)

Module Vec.
Section Vec.
Context {num : Type} {N : JSNumber num}.

(** [ReadonlyNonEmptyArray<number>] *)
Definition Vec : Type := list num.

Definition dot (fb fa : Vec) : num :=
  FpTs.reduce n0 nadd (FpTs.zipWith undef undef fa fb nmul).

(** [at(i)(v) = v[i]] *)
Definition at_ (i : nat) (v : Vec) : num := nth i v undef.
End Vec.
End Vec.

(** ** Mat.ts *)

Module Mat.
Section Mat.
Context {num : Type} {N : JSNumber num}.
Local Open Scope num_scope.

(** [ReadonlyNonEmptyArray<Vec>], rows first. *)
Definition Mat : Type := list (@Vec.Vec num).

(** [row = flow(at, RNEA.map)]: the [n]-th component of every row. *)
Definition row (n : nat) (m : Mat) : Vec.Vec := map (Vec.at_ n) m.

(** [transpose(fa) = pipe(RNEA.head(fa), RNEA.mapWithIndex(flow(row, apply(fa))))].
    The type excludes the empty array, whose head is read as [[]] here. *)
Definition transpose (fa : Mat) : Mat :=
  FpTs.mapWithIndex (fun i _ => row i fa) (hd [] fa).

Definition translate (v : Vec.Vec) : Mat :=
  [ [1; 0; 0; 0];
    [0; 1; 0; 0];
    [0; 0; 1; 0];
    [Vec.at_ 0 v; Vec.at_ 1 v; Vec.at_ 2 v; 1] ].

Definition scale (v : Vec.Vec) : Mat :=
  [ [Vec.at_ 0 v; 0; 0; 0];
    [0; Vec.at_ 1 v; 0; 0];
    [0; 0; Vec.at_ 2 v; 0];
    [0; 0; 0; 1] ].

(** [semigroupMat.concat] *)
Definition concat (x y : Mat) : Mat :=
  let fab := map Vec.dot (transpose y) in
  map (fun ar => map (fun f => f ar) fab) x.

Definition mul (fb fa : Mat) : Mat := concat fa fb.

Definition identity : Mat :=
  [ [1; 0; 0; 0];
    [0; 1; 0; 0];
    [0; 0; 1; 0];
    [0; 0; 0; 1] ].

(** [monoidMat = { concat: semigroupMat.concat, empty: identity }] *)
Definition monoidMat_empty : Mat := identity.

(** [concatAll = concatAll_(monoidMat)]: the product of a list of matrices,
    folded from the left, starting from [identity]. *)
Definition concatAll (ms : list Mat) : Mat :=
  fold_left concat ms monoidMat_empty.

Section Rotations.
Context {M : JSMath num}.

Definition sin (deg : num) : num :=
  Math_sin ((deg * Math_PI) / n180).

Definition cos (deg : num) : num :=
  Math_cos ((deg * Math_PI) / n180).

Definition rotateX (angle : num) : Mat :=
  [ [1; 0; 0; 0];
    [0; cos angle; sin angle; 0];
    [0; - sin angle; cos angle; 0];
    [0; 0; 0; 1] ].

Definition rotateY (angle : num) : Mat :=
  [ [cos angle; 0; - sin angle; 0];
    [0; 1; 0; 0];
    [sin angle; 0; cos angle; 0];
    [0; 0; 0; 1] ].

Definition rotateZ (angle : num) : Mat :=
  [ [cos angle; sin angle; 0; 0];
    [- sin angle; cos angle; 0; 0];
    [0; 0; 0; 0];
    [0; 0; 0; 1] ].

Definition axonometric (phi theta : num) : Mat :=
  [ [cos phi; sin phi * sin theta; - sin phi * cos theta; 0];
    [0; cos theta; sin theta; 0];
    [sin phi; - cos phi * sin theta; cos phi * cos theta; 0];
    [0; 0; 0; 1] ].
End Rotations.
End Mat.
End Mat.

(** ** Shape.ts *)

(** The [Foldable] interface of fp-ts: [reduce] is a left fold over the
    elements, which [toList] enumerates in the same order. *)
Class Foldable (F : Type -> Type) : Type := {
  F_reduce : forall A B : Type, F A -> B -> (B -> A -> B) -> B;
  F_toList : forall A : Type, F A -> list A;
  F_reduce_toList : forall (A B : Type) (fa : F A) (b : B) (f : B -> A -> B),
      F_reduce fa b f = fold_left f (F_toList fa) b
}.

Arguments F_reduce {F _ A B} fa b f.
Arguments F_toList {F _ A} fa.
Arguments F_reduce_toList {F _ A B} fa b f.

(** [RA.Foldable] *)
#[export] Instance Foldable_ReadonlyArray : Foldable list := {|
  F_reduce := fun A B fa b f => fold_left f fa b;
  F_toList := fun A fa => fa;
  F_reduce_toList := fun A B fa b f => eq_refl
|}.

(** [O.Foldable] *)
#[export] Instance Foldable_Option : Foldable option := {|
  F_reduce := fun A B fa b f => match fa with Some a => f b a | None => b end;
  F_toList := fun A fa => match fa with Some a => [a] | None => [] end;
  F_reduce_toList := fun A B fa b f =>
    match fa with Some a => eq_refl | None => eq_refl end
|}.

Module Shape.
Section Shape.
Context {num : Type} {N : JSNumber num}.

Inductive Angle : Type :=
| Degrees (degrees : num)
| Radians (radians : num).

Definition Point : Type := @Vec.Vec num.

(** The [Path] interface (its [_tag] is constant). *)
Record Path : Type := mkPath {
  Path_closed : bool;
  Path_points : list Point
}.

Inductive Shape : Type :=
| Composite (shapes : list Shape)
| PathShape (p : Path).

Definition degrees (d : num) : Angle := Degrees d.
Definition radians (r : num) : Angle := Radians r.
Definition point (x y z : num) : Point := [x; y; z].

Definition angle {M : JSMath num} (a : Angle) : num :=
  match a with
  | Radians r => (r * (n180 / Math_PI))%num
  | Degrees d => d
  end.

Definition composite (shapes : list Shape) : Shape := Composite shapes.

(** [monoidPath = M.struct({ _tag, closed: MonoidAny, points: RA.getMonoid() })] *)
Definition monoidPath_concat (x y : Path) : Path :=
  mkPath (Path_closed x || Path_closed y) (Path_points x ++ Path_points y).

Definition monoidPath_empty : Path := mkPath false [].

Definition closed {F : Type -> Type} {FF : Foldable F} (fa : F Point) : Path :=
  F_reduce fa monoidPath_empty
           (fun b a => mkPath true (FpTs.snoc (Path_points b) a)).

Definition path {F : Type -> Type} {FF : Foldable F} (fa : F Point) : Path :=
  F_reduce fa monoidPath_empty
           (fun b a => mkPath false (FpTs.snoc (Path_points b) a)).
End Shape.
End Shape.

(** ** Path3D.ts *)

Module Path3D.
Section Path3D.
Context {num : Type} {N : JSNumber num}.

Definition Path3D : Type := list (list (@Vec.Vec num)).

Definition isPointFinite (point : Vec.Vec) : bool :=
  isFinite (Vec.at_ 0 point) && isFinite (Vec.at_ 1 point)
  && isFinite (Vec.at_ 2 point).

Definition moveTo (point : Vec.Vec) (path : Path3D) : Path3D :=
  if isPointFinite point then FpTs.snoc path [point] else path.

Definition lineTo (point : Vec.Vec) (path : Path3D) : Path3D :=
  if isPointFinite point then
    if FpTs.isNonEmpty path
    then FpTs.modifyLast [] (fun cur => FpTs.snoc cur point) path
    else moveTo point path
  else path.

(** The comparison [end[0] === start[0] && end[1] === start[1] && end[2] === start[2]]. *)
Definition same_ends (e s : Vec.Vec) : bool :=
  strict_eq (Vec.at_ 0 e) (Vec.at_ 0 s)
  && strict_eq (Vec.at_ 1 e) (Vec.at_ 1 s)
  && strict_eq (Vec.at_ 2 e) (Vec.at_ 2 s).

Definition closePath (path : Path3D) : Path3D :=
  if negb (FpTs.isNonEmpty path) then path
  else
    let cur := FpTs.last_ [] path in
    if negb (FpTs.isNonEmpty cur && Nat.ltb 1 (length cur)) then path
    else
      let e := FpTs.last_ [] cur in
      let start := nth 0 cur [] in
      if same_ends e start then path
      else FpTs.snoc (FpTs.updateLast [] (FpTs.snoc cur start) path) [start].
End Path3D.
End Path3D.

(** ** Canvas.ts: the Renderer boundary *)

Module Canvas.
Section Canvas.
Context {num : Type} {N : JSNumber num}.

Inductive FillRule : Type := evenodd | nonzero.

(** One call on the native 2D context. *)
Inductive Command : Type :=
| ctx_save
| ctx_restore
| ctx_beginPath
| ctx_closePath
| ctx_moveTo (x y : num)
| ctx_lineTo (x y : num)
| ctx_fill (fillRule : option FillRule)
| ctx_stroke
| ctx_set_fillStyle (style : String.string)
| ctx_set_strokeStyle (style : String.string)
| ctx_set_lineWidth (width : num).

(** The handle of the drawing surface.  The surface itself is the
    outside world: the calls it has received so far, oldest first. *)
Inductive CanvasRenderingContext2D : Type := ctx2d.

Definition World : Type := list Command.

(** [IO<A>] and [ReaderIO<R, A>] of fp-ts, as state passing. *)
Definition IO (A : Type) : Type := World -> A * World.
Definition ReaderIO (R A : Type) : Type := R -> IO A.
Definition Render (A : Type) : Type := ReaderIO CanvasRenderingContext2D A.

Definition IO_of {A : Type} (a : A) : IO A := fun w => (a, w).

Definition RIO_ask {R : Type} : ReaderIO R R := fun r => IO_of r.

Definition RIO_chain {R A B : Type} (f : A -> ReaderIO R B)
           (ma : ReaderIO R A) : ReaderIO R B :=
  fun r w => let (a, w1) := ma r w in f a r w1.

Definition RIO_chainFirst {R A B : Type} (f : A -> ReaderIO R B)
           (ma : ReaderIO R A) : ReaderIO R A :=
  fun r w => let (a, w1) := ma r w in let (_, w2) := f a r w1 in (a, w2).

(** [RA.Traversable.traverse(RIO.Applicative)]: effects left to right. *)
Definition traverseReaderIO {R A B : Type} (f : A -> ReaderIO R B)
  : list A -> ReaderIO R (list B) :=
  fix go (ta : list A) : ReaderIO R (list B) :=
    match ta with
    | [] => fun _ => IO_of []
    | a :: ta' =>
      fun r w => let (b, w1) := f a r w in
                 let (bs, w2) := go ta' r w1 in (b :: bs, w2)
    end.

(** A context method call followed by [return ctx]. *)
Definition call (c : Command) : Render CanvasRenderingContext2D :=
  fun ctx w => (ctx, w ++ [c]).

Definition setFillStyle (s : String.string) := call (ctx_set_fillStyle s).
Definition setStrokeStyle (s : String.string) := call (ctx_set_strokeStyle s).
Definition setLineWidth (w : num) := call (ctx_set_lineWidth w).
Definition beginPath := call ctx_beginPath.
Definition fill (f : option FillRule) := call (ctx_fill f).
Definition stroke := call ctx_stroke.
Definition lineTo (p : Vec.Vec) := call (ctx_lineTo (Vec.at_ 0 p) (Vec.at_ 1 p)).
Definition moveTo (p : Vec.Vec) := call (ctx_moveTo (Vec.at_ 0 p) (Vec.at_ 1 p)).
Definition save := call ctx_save.
Definition restore := call ctx_restore.

Definition withContext {A : Type} (f : Render A) : Render A :=
  RIO_chainFirst (fun _ => restore) (RIO_chain (fun _ => f) save).

Definition fillPath {A : Type} (f : Render A) : Render A :=
  RIO_chainFirst (fun _ => fill None) (RIO_chain (fun _ => f) beginPath).

Definition strokePath {A : Type} (f : Render A) : Render A :=
  RIO_chainFirst (fun _ => stroke) (RIO_chain (fun _ => f) beginPath).

(** The calls a render effect issues on a fresh surface. *)
Definition commands {A : Type} (r : Render A) : list Command :=
  snd (r ctx2d []).
End Canvas.
End Canvas.

(** ** Drawing.ts *)

Module Drawing.
Section Drawing.
Context {num : Type} {N : JSNumber num} {M : JSMath num}.
(** [Color] and [toCss] of [./Color]. *)
Variable Color : Type.
Variable toCss : Color -> String.string.
Local Open Scope num_scope.

Definition Transform3D : Type := @Mat.Mat num.

(** [C.Render<CanvasRenderingContext2D>] *)
Local Abbreviation RenderCtx := (@Canvas.Render num Canvas.CanvasRenderingContext2D).

Record FillStyle : Type := mkFillStyle {
  FillStyle_color : option Color
}.

Record OutlineStyle : Type := mkOutlineStyle {
  OutlineStyle_color : option Color;
  OutlineStyle_lineWidth : option num
}.

Inductive Drawing : Type :=
| Outline (shape : @Shape.Shape num) (style : OutlineStyle)
| Fill (shape : @Shape.Shape num) (style : FillStyle)
| Many (drawings : list Drawing)
| Translate (translateX translateY translateZ : num) (drawing : Drawing)
| Rotate (rotateX rotateY rotateZ : @Shape.Angle num) (drawing : Drawing)
| Scale (scaleX scaleY scaleZ : num) (drawing : Drawing).

Definition translate := Translate.
Definition rotate := Rotate.
Definition scale := Scale.
Definition many := Many.
Definition fill := Fill.
Definition outline := Outline.

Definition outlineColor (c : Color) : OutlineStyle := mkOutlineStyle (Some c) None.
Definition lineWidth (w : num) : OutlineStyle := mkOutlineStyle None (Some w).
Definition fillStyle (c : Color) : FillStyle := mkFillStyle (Some c).

(** [O.getMonoid(first())]: the left operand when it is defined. *)
Definition getFirstMonoid_concat {A : Type} (x y : option A) : option A :=
  match x with
  | Some _ => x
  | None => y
  end.

Definition monoidFillStyle_concat (x y : FillStyle) : FillStyle :=
  mkFillStyle (getFirstMonoid_concat (FillStyle_color x) (FillStyle_color y)).

Definition monoidFillStyle_empty : FillStyle := mkFillStyle None.

Definition monoidOutlineStyle_concat (x y : OutlineStyle) : OutlineStyle :=
  mkOutlineStyle
    (getFirstMonoid_concat (OutlineStyle_color x) (OutlineStyle_color y))
    (getFirstMonoid_concat (OutlineStyle_lineWidth x) (OutlineStyle_lineWidth y)).

Definition monoidOutlineStyle_empty : OutlineStyle := mkOutlineStyle None None.

(** [M.concatAll(RA.getMonoid())]: fold with [concat] from [empty]. *)
Definition concatAll_array {A : Type} (xs : list (list A)) : list A :=
  fold_left (@app A) xs [].

Definition monoidDrawing_concat (x y : Drawing) : Drawing :=
  match x, y with
  | Many xs, Many ys => many (concatAll_array [xs; ys])
  | Many xs, _ => many (concatAll_array [xs; [y]])
  | _, Many ys => many (concatAll_array [[x]; ys])
  | _, _ => many [x; y]
  end.

Definition monoidDrawing_empty : Drawing := many [].

Fixpoint renderShape (shape : @Shape.Shape num) : @Path3D.Path3D num :=
  match shape with
  | Shape.Composite shapes =>
    fold_left (fun b a => b ++ renderShape a) shapes []
  | Shape.PathShape p =>
    FpTs.foldLeft []
      (fun head tail =>
         let path :=
           FpTs.reduce (Path3D.moveTo head []) (fun a f => f a)
                       (map Path3D.lineTo tail) in
         if Shape.Path_closed p
         then FpTs.slice_0_m1 (Path3D.closePath path)
         else path)
      (Shape.Path_points p)
  end.

Definition applyStyle {A : Type} (fa : option A)
           (f : A -> RenderCtx)
  : RenderCtx :=
  match fa with
  | None => Canvas.RIO_ask
  | Some a => f a
  end.

(** Hardcoded parallel projection matrix *)
Definition VT : @Mat.Mat num :=
  [ [1; 0; 0; 0];
    [0; 1; 0; 0];
    [0; 0; 0; 0];
    [0; 0; 0; 1] ].

Definition renderSubPath (subPath : list (@Vec.Vec num))
  : RenderCtx :=
  FpTs.foldLeft Canvas.RIO_ask
    (fun head tail =>
       Canvas.RIO_chain (fun _ => Canvas.RIO_ask)
         (Canvas.RIO_chain
            (fun _ => Canvas.traverseReaderIO Canvas.lineTo tail)
            (Canvas.moveTo head)))
    subPath.

(** [RA.map(RNEA.fromReadonlyArray)] then [RA.compact] *)
Definition nonEmptyOnly {A : Type} (xs : list (list A)) : list (list A) :=
  filter FpTs.isNonEmpty xs.

Definition toCoords (shape : @Shape.Shape num) (transform : Transform3D)
  : list Transform3D :=
  map (Mat.mul VT)
    (map (Mat.mul transform)
       (map (map (fun p => FpTs.snoc p 1))
          (nonEmptyOnly (renderShape shape)))).

Fixpoint go (t : Transform3D) (d : Drawing) {struct d}
  : RenderCtx :=
  match d with
  | Many drawings =>
    Canvas.RIO_chain (fun _ => Canvas.RIO_ask)
      (Canvas.traverseReaderIO (go t) drawings)
  | Scale sx sy sz d' =>
    go (Mat.mul (Mat.scale [sx; sy; sz]) t) d'
  | Rotate ax ay az d' =>
    go (Mat.concat
          (Mat.mul (Mat.rotateX (Shape.angle ax)) (Mat.rotateY (Shape.angle ay)))
          (Mat.mul (Mat.rotateZ (Shape.angle az)) t)) d'
  | Translate dx dy dz d' =>
    go (Mat.mul (Mat.translate [dx; dy; dz]) t) d'
  | Outline shape style =>
    Canvas.withContext
      (Canvas.RIO_chain (fun _ => Canvas.RIO_ask)
         (Canvas.RIO_chain
            (fun _ =>
               Canvas.RIO_chainFirst (fun _ => Canvas.stroke)
                 (Canvas.RIO_chain
                    (fun _ => Canvas.traverseReaderIO renderSubPath
                                (toCoords shape t))
                    Canvas.beginPath))
            (Canvas.RIO_chain
               (fun _ => applyStyle (OutlineStyle_lineWidth style)
                                    Canvas.setLineWidth)
               (applyStyle (OutlineStyle_color style)
                           (fun c => Canvas.setStrokeStyle (toCss c))))))
  | Fill shape style =>
    Canvas.withContext
      (Canvas.RIO_chain (fun _ => Canvas.RIO_ask)
         (Canvas.RIO_chain
            (fun _ =>
               Canvas.RIO_chainFirst (fun _ => Canvas.fill None)
                 (Canvas.RIO_chain
                    (fun _ => Canvas.traverseReaderIO renderSubPath
                                (toCoords shape t))
                    Canvas.beginPath))
            (applyStyle (FillStyle_color style)
                        (fun c => Canvas.setFillStyle (toCss c)))))
  end.

Definition render (drawing : Drawing)
  : RenderCtx :=
  go Mat.identity drawing.
End Drawing.
End Drawing.

(** ** Concrete values *)

(** The point [(x, y, z)] over JavaScript numbers. *)
Definition P3 (x y z : float) : @Vec.Vec jsnum :=
  Shape.point (Num x) (Num y) (Num z).

(** The closed unit square of the end-to-end example. *)
Definition unit_square : list (@Vec.Vec jsnum) :=
  [P3 0 0 0; P3 1 0 0; P3 1 1 0; P3 0 1 0].

(** ** The specification's own notions *)

Module Spec.
Section Spec.
Context {num : Type} {N : JSNumber num}.
Local Open Scope num_scope.

(** A point of a [Path3D] is a 3-vector. *)
Definition Vector3 (v : @Vec.Vec num) : Prop := length v = 3.

Definition points_are_Vector3 (p : @Path3D.Path3D num) : Prop :=
  Forall (Forall Vector3) p.

(** "equals component-wise": same arity, and [===] on every component. *)
Fixpoint componentwise_eq (a b : @Vec.Vec num) : bool :=
  match a, b with
  | [], [] => true
  | x :: a', y :: b' => (x === y) && componentwise_eq a' b'
  | _, _ => false
  end.

(** [closePath] in the words of section 4.4: a no-op on the empty path,
    on a last subpath of at most one point and on a last subpath whose
    final point equals its first; otherwise the last subpath gets a copy
    of its first point and a new subpath holding only that point follows. *)
Definition closePath_spec (path : @Path3D.Path3D num) : Path3D.Path3D :=
  match rev path with
  | [] => path
  | cur :: earlier =>
    match cur with
    | [] | [_] => path
    | first :: _ :: _ =>
      if componentwise_eq (List.last cur first) first then path
      else rev earlier ++ [cur ++ [first]; [first]]
    end
  end.

(** Every subpath holds at least one point. *)
Definition subpaths_nonempty (p : @Path3D.Path3D num) : Prop :=
  Forall (fun sub => sub <> []) p.

(** The paths the three builder operations produce from the empty path. *)
Inductive reachable : @Path3D.Path3D num -> Prop :=
| reach_empty : reachable []
| reach_moveTo : forall pt p, reachable p -> reachable (Path3D.moveTo pt p)
| reach_lineTo : forall pt p, reachable p -> reachable (Path3D.lineTo pt p)
| reach_closePath : forall p, reachable p -> reachable (Path3D.closePath p).
End Spec.
End Spec.

Module SpecAlgebra.
Section SpecAlgebra.
Context {num : Type} {N : JSNumber num}.
Local Open Scope num_scope.

(** The sum of the products [a[i] * b[i]], added from 0 in index order,
    over the indices both vectors have. *)
Definition sum_of_products (a b : @Vec.Vec num) : num :=
  fold_left nadd (map (fun ab => fst ab * snd ab) (combine a b)) 0.

(** [dot] as section 4.1 and section 7 word it: the lengths must agree,
    and a mismatch aborts the operation. *)
Definition dot_checked (b a : @Vec.Vec num) : option num :=
  if Nat.eqb (length a) (length b) then Some (sum_of_products a b) else None.

(** A matrix of [m] rows of [n] numbers each. *)
Definition is_matrix (m n : nat) (A : @Mat.Mat num) : Prop :=
  length A = m /\ Forall (fun r => length r = n) A.

(** [A[i][j]] *)
Definition entry (A : @Mat.Mat num) (i j : nat) : num :=
  nth j (nth i A []) undef.

(** The first [p] columns of a matrix. *)
Definition columns (p : nat) (Y : @Mat.Mat num) : @Mat.Mat num :=
  map (fun j => Mat.row j Y) (seq 0 p).

Section StandardRotations.
Context {M : JSMath num}.

(** The rotation matrices of the textbooks, for row vectors, in
    homogeneous coordinates. *)
Definition standard_rotateX (a : num) : @Mat.Mat num :=
  [ [1; 0; 0; 0];
    [0; Mat.cos a; Mat.sin a; 0];
    [0; - Mat.sin a; Mat.cos a; 0];
    [0; 0; 0; 1] ].

Definition standard_rotateY (a : num) : @Mat.Mat num :=
  [ [Mat.cos a; 0; - Mat.sin a; 0];
    [0; 1; 0; 0];
    [Mat.sin a; 0; Mat.cos a; 0];
    [0; 0; 0; 1] ].

Definition standard_rotateZ (a : num) : @Mat.Mat num :=
  [ [Mat.cos a; Mat.sin a; 0; 0];
    [- Mat.sin a; Mat.cos a; 0; 0];
    [0; 0; 1; 0];
    [0; 0; 0; 1] ].
End StandardRotations.

(** Entry-wise [===] of two matrices of the same shape. *)
Fixpoint mat_strict_eq (A B : @Mat.Mat num) : bool :=
  match A, B with
  | [], [] => true
  | r :: A', s :: B' => Spec.componentwise_eq r s && mat_strict_eq A' B'
  | _, _ => false
  end.
End SpecAlgebra.
End SpecAlgebra.

Module SpecDrawing.
Section SpecDrawing.
Context {num : Type} {Color : Type}.

Definition isMany (d : @Drawing.Drawing num Color) : bool :=
  match d with
  | Drawing.Many _ => true
  | _ => false
  end.

(** The children of a [Many]; any other drawing counts as its own only
    child. *)
Definition children (d : @Drawing.Drawing num Color) : list (Drawing.Drawing Color) :=
  match d with
  | Drawing.Many ds => ds
  | _ => [d]
  end.
End SpecDrawing.
End SpecDrawing.

(** Transforms whose products round: scalings by 0.1, 0.2 and 0.3. *)
Definition scale_01 : @Mat.Mat jsnum := Mat.scale [Num 0.1; Num 1; Num 1].
Definition scale_02 : @Mat.Mat jsnum := Mat.scale [Num 0.2; Num 1; Num 1].
Definition scale_03 : @Mat.Mat jsnum := Mat.scale [Num 0.3; Num 1; Num 1].

(** A translation to infinity along x. *)
Definition translate_inf : @Mat.Mat jsnum :=
  Mat.translate [Num infinity; Num 0; Num 0].

(** ** Notions used to state what the builder and the interpreter keep *)

Module SpecRender.
Section SpecRender.
Context {num : Type} {N : JSNumber num}.

(** Every point of the path passes [isPointFinite]. *)
Definition points_finite (p : @Path3D.Path3D num) : Prop :=
  Forall (Forall (fun pt => Path3D.isPointFinite pt = true)) p.

(** The calls that draw one subpath: [moveTo] its first point, [lineTo]
    each later one, with the first two coordinates of each point. *)
Definition subpath_calls (sub : list (@Vec.Vec num)) : list Canvas.Command :=
  match sub with
  | [] => []
  | h :: t =>
    Canvas.ctx_moveTo (Vec.at_ 0 h) (Vec.at_ 1 h)
    :: map (fun p => Canvas.ctx_lineTo (Vec.at_ 0 p) (Vec.at_ 1 p)) t
  end.

Definition is_save (c : @Canvas.Command num) : bool :=
  match c with Canvas.ctx_save => true | _ => false end.

Definition is_restore (c : @Canvas.Command num) : bool :=
  match c with Canvas.ctx_restore => true | _ => false end.

Definition is_beginPath (c : @Canvas.Command num) : bool :=
  match c with Canvas.ctx_beginPath => true | _ => false end.

(** How many calls of a trace satisfy [f]. *)
Definition count (f : @Canvas.Command num -> bool) (l : list Canvas.Command) : nat :=
  length (filter f l).

(** The number of [Fill] and [Outline] nodes of a drawing. *)
Fixpoint leaves {Color : Type} (d : @Drawing.Drawing num Color) : nat :=
  match d with
  | Drawing.Outline _ _ => 1
  | Drawing.Fill _ _ => 1
  | Drawing.Many ds => list_sum (map leaves ds)
  | Drawing.Translate _ _ _ d' => leaves d'
  | Drawing.Rotate _ _ _ d' => leaves d'
  | Drawing.Scale _ _ _ d' => leaves d'
  end.

(** The style calls of the two kinds of leaf. *)
Definition fill_style_calls {Color : Type} (toCss : Color -> String.string)
           (st : Drawing.FillStyle Color) : list (@Canvas.Command num) :=
  match Drawing.FillStyle_color st with
  | Some c => [Canvas.ctx_set_fillStyle (toCss c)]
  | None => []
  end.

Definition outline_style_calls {Color : Type} (toCss : Color -> String.string)
           (st : @Drawing.OutlineStyle num Color) : list (@Canvas.Command num) :=
  match Drawing.OutlineStyle_color st with
  | Some c => [Canvas.ctx_set_strokeStyle (toCss c)]
  | None => []
  end
  ++ match Drawing.OutlineStyle_lineWidth st with
     | Some w => [Canvas.ctx_set_lineWidth w]
     | None => []
     end.
End SpecRender.
End SpecRender.

(** ** Matrices of finite numbers *)

Module SpecFinite.
Section SpecFinite.
Context {num : Type} {N : JSNumber num}.

(** Every entry passes [isFinite]: no NaN, no infinity, no [undefined]. *)
Definition finite_entries (A : @Mat.Mat num) : Prop :=
  Forall (Forall (fun x => isFinite x = true)) A.
End SpecFinite.
End SpecFinite.

(** * Properties *)

(** ** The repository's unit tests *)

Example test_Vec_at : Vec.at_ 2 [Num 1; Num 2; Num 3; Num 4] = Num 3.
Proof. reflexivity. Qed.

Example test_Vec_dot :
  Vec.dot [Num 1; Num 2; Num (-3)] [Num 1; Num 2; Num 1] = Num 2.
Proof. vm_compute. reflexivity. Qed.

Example test_Mat_row :
  Mat.row 1 [ [Num 1; Num 2; Num 3; Num 4];
              [Num 5; Num 6; Num 7; Num 8];
              [Num 9; Num 10; Num 11; Num 12] ] = [Num 2; Num 6; Num 10].
Proof. reflexivity. Qed.

Example test_Mat_transpose :
  Mat.transpose [ [Num 1; Num 2]; [Num 3; Num 4]; [Num 5; Num 6] ] =
  [ [Num 1; Num 3; Num 5]; [Num 2; Num 4; Num 6] ].
Proof. reflexivity. Qed.

Example test_Mat_mul :
  Mat.mul [ [Num 1; Num 2]; [Num 3; Num 4]; [Num 5; Num 6] ]
          [ [Num 1; Num 2; Num 3]; [Num 4; Num 5; Num 6] ] =
  [ [Num 22; Num 28]; [Num 49; Num 64] ].
Proof. vm_compute. reflexivity. Qed.

Example test_Path3D_moveTo :
  Path3D.moveTo (P3 4 55 330) [] = [[P3 4 55 330]] /\
  Path3D.moveTo (P3 4 55 330) [[P3 4 55 330]] = [[P3 4 55 330]; [P3 4 55 330]].
Proof. split; vm_compute; reflexivity. Qed.

Example test_Path3D_lineTo :
  Path3D.lineTo (P3 4 55 330) [] = [[P3 4 55 330]] /\
  Path3D.lineTo (P3 3 5 10) [[P3 4 55 330]] = [[P3 4 55 330; P3 3 5 10]].
Proof. split; vm_compute; reflexivity. Qed.

Example test_Path3D_closePath :
  Path3D.closePath (@nil (list (@Vec.Vec jsnum))) = [] /\
  Path3D.closePath [[P3 1 2 3]] = [[P3 1 2 3]] /\
  Path3D.closePath [[P3 1 2 3; P3 1 2 3]] = [[P3 1 2 3; P3 1 2 3]].
Proof. repeat split; vm_compute; reflexivity. Qed.

(** A non-finite point is dropped by [moveTo] and [lineTo]. *)
Example test_Path3D_non_finite :
  Path3D.moveTo (P3 nan 0 0) [[P3 1 2 3]] = [[P3 1 2 3]] /\
  Path3D.lineTo (P3 0 infinity 0) [[P3 1 2 3]] = [[P3 1 2 3]].
Proof. split; vm_compute; reflexivity. Qed.

(** ** Lists: the last element and its removal *)

Section ListFacts.
Context {A : Type}.

Lemma last_snoc (l : list A) (x d : A) : List.last (l ++ [x]) d = x.
Proof. apply last_last. Qed.

Lemma removelast_snoc (l : list A) (x : A) : removelast (l ++ [x]) = l.
Proof. apply removelast_last. Qed.

Lemma isNonEmpty_snoc (l : list A) (x : A) : FpTs.isNonEmpty (l ++ [x]) = true.
Proof. now destruct l. Qed.

Lemma snoc_cases (l : list A) : l = [] \/ exists l' x, l = l' ++ [x].
Proof.
  destruct l as [|a l]; [now left | right].
  destruct (@exists_last A (a :: l)) as (l' & x & E); [discriminate |].
  now exists l', x.
Qed.

Lemma last_nonempty_default (a : A) (l : list A) (d d' : A) :
  List.last (a :: l) d = List.last (a :: l) d'.
Proof.
  revert a. induction l as [|x l IH]; intros a; [reflexivity |].
  change (List.last (x :: l) d = List.last (x :: l) d'). apply IH.
Qed.

Lemma last_nonempty_In (a : A) (l : list A) (d : A) :
  In (List.last (a :: l) d) (a :: l).
Proof.
  revert a. induction l as [|x l IH]; intros a; [now left |].
  right. change (In (List.last (x :: l) d) (x :: l)). apply IH.
Qed.
End ListFacts.

(** ** Path3D: how the builder acts on a path seen from its last subpath *)

Section Path3DFacts.
Context {num : Type} {N : JSNumber num}.
Local Open Scope num_scope.

Local Abbreviation Path3D := (@Path3D.Path3D num).
Local Abbreviation Vec := (@Vec.Vec num).

Lemma moveTo_finite (pt : Vec) (p : Path3D) :
  Path3D.isPointFinite pt = true -> Path3D.moveTo pt p = p ++ [[pt]].
Proof. intros H. unfold Path3D.moveTo. now rewrite H. Qed.

Lemma moveTo_not_finite (pt : Vec) (p : Path3D) :
  Path3D.isPointFinite pt = false -> Path3D.moveTo pt p = p.
Proof. intros H. unfold Path3D.moveTo. now rewrite H. Qed.

Lemma lineTo_not_finite (pt : Vec) (p : Path3D) :
  Path3D.isPointFinite pt = false -> Path3D.lineTo pt p = p.
Proof. intros H. unfold Path3D.lineTo. now rewrite H. Qed.

Lemma lineTo_empty (pt : Vec) : Path3D.lineTo pt [] = Path3D.moveTo pt [].
Proof.
  unfold Path3D.lineTo, Path3D.moveTo.
  now destruct (Path3D.isPointFinite pt).
Qed.

Lemma lineTo_snoc (pt : Vec) (q : Path3D) (cur : list Vec) :
  Path3D.isPointFinite pt = true ->
  Path3D.lineTo pt (q ++ [cur]) = q ++ [cur ++ [pt]].
Proof.
  intros H. unfold Path3D.lineTo. rewrite H, isNonEmpty_snoc.
  unfold FpTs.modifyLast, FpTs.snoc.
  now rewrite last_snoc, removelast_snoc.
Qed.

Lemma closePath_snoc (q : Path3D) (cur : list Vec) :
  Path3D.closePath (q ++ [cur]) =
  if Nat.ltb 1 (length cur) then
    if Path3D.same_ends (List.last cur []) (nth 0 cur [])
    then q ++ [cur]
    else q ++ [cur ++ [nth 0 cur []]; [nth 0 cur []]]
  else q ++ [cur].
Proof.
  unfold Path3D.closePath. rewrite isNonEmpty_snoc. cbn [negb].
  unfold FpTs.last_, FpTs.updateLast, FpTs.modifyLast, FpTs.snoc.
  rewrite last_snoc, removelast_snoc.
  replace (FpTs.isNonEmpty cur && Nat.ltb 1 (length cur))
    with (Nat.ltb 1 (length cur)) by now destruct cur.
  destruct (Nat.ltb 1 (length cur)); simpl; [| reflexivity].
  destruct (Path3D.same_ends _ _); [reflexivity |].
  now rewrite <- app_assoc.
Qed.

(** On 3-vectors the three comparisons of [closePath] are the
    component-wise equality. *)
Lemma same_ends_componentwise (e s : Vec) :
  Spec.Vector3 e -> Spec.Vector3 s ->
  Path3D.same_ends e s = Spec.componentwise_eq e s.
Proof.
  unfold Spec.Vector3. intros He Hs.
  destruct e as [|e0 [|e1 [|e2 [|? ?]]]]; try discriminate.
  destruct s as [|s0 [|s1 [|s2 [|? ?]]]]; try discriminate.
  unfold Path3D.same_ends, Vec.at_. simpl.
  now rewrite andb_true_r, andb_assoc.
Qed.

Lemma closePath_refines_spec (p : Path3D) :
  Spec.points_are_Vector3 p -> Path3D.closePath p = Spec.closePath_spec p.
Proof.
  intros W.
  destruct (snoc_cases p) as [-> | (q & cur & ->)]; [reflexivity |].
  rewrite closePath_snoc. unfold Spec.closePath_spec.
  rewrite rev_app_distr. simpl rev. cbn [app].
  destruct cur as [|first [|second rest]]; try reflexivity.
  change (Nat.ltb 1 (length (first :: second :: rest))) with true. cbv iota.
  cbn [nth].
  apply Forall_app in W. destruct W as [_ W].
  inversion W as [|? ? Wcur _]; subst.
  assert (Hf : Spec.Vector3 first) by now inversion Wcur.
  assert (Hl : Spec.Vector3 (List.last (first :: second :: rest) first)).
  { rewrite Forall_forall in Wcur. apply Wcur. apply last_nonempty_In. }
  assert (Hd : List.last (first :: second :: rest) [] =
               List.last (first :: second :: rest) first)
    by apply last_nonempty_default.
  rewrite Hd, same_ends_componentwise by assumption.
  rewrite rev_involutive.
  reflexivity.
Qed.

(** Each builder operation keeps every subpath non-empty. *)
Lemma moveTo_keeps_nonempty (pt : Vec) (p : Path3D) :
  Spec.subpaths_nonempty p -> Spec.subpaths_nonempty (Path3D.moveTo pt p).
Proof.
  intros H. unfold Path3D.moveTo, FpTs.snoc.
  destruct (Path3D.isPointFinite pt); [| exact H].
  apply Forall_app. split; [exact H |].
  constructor; [discriminate | constructor].
Qed.

Lemma lineTo_keeps_nonempty (pt : Vec) (p : Path3D) :
  Spec.subpaths_nonempty p -> Spec.subpaths_nonempty (Path3D.lineTo pt p).
Proof.
  intros H.
  destruct (Path3D.isPointFinite pt) eqn:F.
  - destruct (snoc_cases p) as [-> | (q & cur & ->)].
    + rewrite lineTo_empty. now apply moveTo_keeps_nonempty.
    + rewrite lineTo_snoc by exact F.
      apply Forall_app in H. destruct H as [Hq _].
      apply Forall_app. split; [exact Hq |].
      constructor; [| constructor].
      intro E. now apply app_eq_nil in E as [_ E].
  - now rewrite lineTo_not_finite by exact F.
Qed.

Lemma closePath_keeps_nonempty (p : Path3D) :
  Spec.subpaths_nonempty p -> Spec.subpaths_nonempty (Path3D.closePath p).
Proof.
  intros H.
  destruct (snoc_cases p) as [-> | (q & cur & ->)]; [exact H |].
  rewrite closePath_snoc.
  destruct (Nat.ltb 1 (length cur)); [| exact H].
  destruct (Path3D.same_ends _ _); [exact H |].
  apply Forall_app in H. destruct H as [Hq _].
  apply Forall_app. split; [exact Hq |].
  constructor; [| constructor; [discriminate | constructor]].
  intro E. now apply app_eq_nil in E as [_ E].
Qed.
End Path3DFacts.

(** ** renderShape on a [Path] shape *)

Section RenderShapeFacts.
Context {num : Type} {N : JSNumber num}.

Local Abbreviation Vec := (@Vec.Vec num).

(** Drawing lines from a path of one subpath appends the finite points. *)
Lemma lineTo_all_snoc (tail cur : list Vec) :
  fold_left (fun a f => f a) (map Path3D.lineTo tail) [cur] =
  [cur ++ filter Path3D.isPointFinite tail].
Proof.
  revert cur. induction tail as [|pt tail IH]; intros cur; simpl.
  - now rewrite app_nil_r.
  - destruct (Path3D.isPointFinite pt) eqn:F.
    + change [cur] with ([] ++ [cur]).
      rewrite (lineTo_snoc pt [] cur F). simpl. rewrite IH.
      now rewrite <- app_assoc.
    + rewrite lineTo_not_finite by exact F. apply IH.
Qed.

(** From the empty path, the first finite point opens the only subpath. *)
Lemma lineTo_all_empty (tail : list Vec) :
  fold_left (fun a f => f a) (map Path3D.lineTo tail) [] =
  match filter Path3D.isPointFinite tail with
  | [] => []
  | fs => [fs]
  end.
Proof.
  induction tail as [|pt tail IH]; simpl; [reflexivity |].
  rewrite lineTo_empty.
  destruct (Path3D.isPointFinite pt) eqn:F.
  - rewrite moveTo_finite by exact F. simpl. apply lineTo_all_snoc.
  - rewrite moveTo_not_finite by exact F. apply IH.
Qed.

Lemma moveTo_lineTo_all (head : Vec) (tail : list Vec) :
  FpTs.reduce (Path3D.moveTo head []) (fun a f => f a)
              (map Path3D.lineTo tail) =
  match filter Path3D.isPointFinite (head :: tail) with
  | [] => []
  | fs => [fs]
  end.
Proof.
  unfold FpTs.reduce. simpl filter.
  destruct (Path3D.isPointFinite head) eqn:F.
  - rewrite moveTo_finite by exact F. simpl. apply lineTo_all_snoc.
  - rewrite moveTo_not_finite by exact F. apply lineTo_all_empty.
Qed.

(** A closed [Path] shape: close the single subpath of finite points,
    then drop the last subpath of the result. *)
Lemma renderShape_closed_filter (pts : list Vec) :
  Drawing.renderShape (Shape.PathShape (Shape.mkPath true pts)) =
  removelast
    (Path3D.closePath
       match filter Path3D.isPointFinite pts with
       | [] => []
       | fs => [fs]
       end).
Proof.
  destruct pts as [|head tail]; [reflexivity |].
  cbn [Drawing.renderShape FpTs.foldLeft Shape.Path_closed Shape.Path_points].
  unfold FpTs.slice_0_m1. now rewrite moveTo_lineTo_all.
Qed.

(** When [closePath] has nothing to close, the drop removes the subpath
    itself. *)
Lemma renderShape_closed_nothing_to_close (pts : list Vec) :
  let fs := filter Path3D.isPointFinite pts in
  length fs <= 1 \/ Path3D.same_ends (List.last fs []) (nth 0 fs []) = true ->
  Drawing.renderShape (Shape.PathShape (Shape.mkPath true pts)) = [].
Proof.
  intros fs H. rewrite renderShape_closed_filter. fold fs.
  destruct fs as [|a l] eqn:E; [reflexivity |].
  change [a :: l] with ([] ++ [a :: l]).
  rewrite (closePath_snoc [] (a :: l)).
  destruct (Nat.ltb 1 (length (a :: l))) eqn:L; [| reflexivity].
  destruct H as [H | H].
  - apply Nat.ltb_lt in L. lia.
  - now rewrite H.
Qed.
End RenderShapeFacts.

(** ** Claims on the path builder and on [renderShape] *)

(** X29.  [renderShape] on a closed [Path] shape, case by case on its
    finite points (the others are dropped by [moveTo] and [lineTo]).  When
    at least two points are finite and the last finite point differs from
    the first finite one in one of its first three coordinates (under
    [===]), the result is exactly one subpath, the finite points in order
    followed by a copy of the first, so it holds no trailing single-point
    subpath and ends where it starts.  When at most one point is finite,
    or the last finite point has the first three coordinates of the first
    one, the result is the empty path. *)
Lemma renderShape_closed_distinct_ends :
  forall (num : Type) (N : JSNumber num) (pts : list (@Vec.Vec num)),
    (let fs := filter Path3D.isPointFinite pts in
     1 < length fs ->
     Path3D.same_ends (List.last fs []) (nth 0 fs []) = false ->
     Drawing.renderShape (Shape.PathShape (Shape.mkPath true pts)) =
       [fs ++ [nth 0 fs []]] /\
     List.last (fs ++ [nth 0 fs []]) [] = nth 0 (fs ++ [nth 0 fs []]) []) /\
    (let fs := filter Path3D.isPointFinite pts in
     length fs <= 1 \/
     Path3D.same_ends (List.last fs []) (nth 0 fs []) = true ->
     Drawing.renderShape (Shape.PathShape (Shape.mkPath true pts)) = []).
Proof.
  intros num N pts. split.
  - intros fs L D. split.
    + rewrite renderShape_closed_filter. fold fs.
      destruct fs as [|a l] eqn:E; [simpl in L; lia |].
      change [a :: l] with ([] ++ [a :: l]).
      rewrite (closePath_snoc [] (a :: l)).
      apply Nat.ltb_lt in L. rewrite L, D. reflexivity.
    + rewrite last_snoc. destruct fs; [simpl in L; lia | reflexivity].
  - apply renderShape_closed_nothing_to_close.
Qed.

Lemma renderShape_closed_distinct_ends_witness :
  Drawing.renderShape (Shape.PathShape (Shape.mkPath true unit_square)) =
    [unit_square ++ [P3 0 0 0]] /\
  List.last (unit_square ++ [P3 0 0 0]) [] = P3 0 0 0.
Proof.
  pose proof (proj1 (@renderShape_closed_distinct_ends jsnum _ unit_square)) as H.
  vm_compute in H. vm_compute. apply H; [lia | reflexivity].
Defined.

(** C1 at the input where the code departs from it: the closed path
    through (0,0,0), (1,0,0) and back to (0,0,0).  [moveTo] and [lineTo]
    build its single subpath, whose last point already equals its first;
    [closePath] therefore changes nothing and adds no trailing subpath, and
    the removal of the last subpath that follows removes the subpath
    itself.  [renderShape] returns no subpath where the claim promises
    exactly one; the same points as an open path render to that one
    subpath.  A closed path of a single point is lost the same way. *)
Theorem renderShape_closed_path_already_closed :
  FpTs.reduce (Path3D.moveTo (P3 0 0 0) []) (fun a f => f a)
              (map Path3D.lineTo [P3 1 0 0; P3 0 0 0]) =
    [[P3 0 0 0; P3 1 0 0; P3 0 0 0]] /\
  Path3D.closePath [[P3 0 0 0; P3 1 0 0; P3 0 0 0]] =
    [[P3 0 0 0; P3 1 0 0; P3 0 0 0]] /\
  Drawing.renderShape
    (Shape.PathShape (Shape.mkPath true [P3 0 0 0; P3 1 0 0; P3 0 0 0])) = [] /\
  Drawing.renderShape
    (Shape.PathShape (Shape.mkPath false [P3 0 0 0; P3 1 0 0; P3 0 0 0])) =
    [[P3 0 0 0; P3 1 0 0; P3 0 0 0]] /\
  Drawing.renderShape (Shape.PathShape (Shape.mkPath true [P3 0 0 0])) = [] /\
  ~ (exists sub,
        Drawing.renderShape
          (Shape.PathShape (Shape.mkPath true [P3 0 0 0; P3 1 0 0; P3 0 0 0]))
        = [sub]).
Proof.
  assert (E : Drawing.renderShape
                (Shape.PathShape
                   (Shape.mkPath true [P3 0 0 0; P3 1 0 0; P3 0 0 0])) = [])
    by (vm_compute; reflexivity).
  repeat split; try (vm_compute; reflexivity).
  intros [sub H]. rewrite E in H. discriminate.
Qed.

(** C2.  Rendering the red filled closed unit square from the identity
    transform issues save, setFillStyle(toCss RED), beginPath, moveTo(0,0),
    lineTo(1,0), lineTo(1,1), lineTo(0,1), lineTo(0,0), fill, restore, in
    that order and nothing else. *)
Theorem render_fill_closed_square :
  forall (Color : Type) (toCss : Color -> String.string) (RED : Color)
         (sin cos : float -> float),
    Canvas.commands
      (@Drawing.render jsnum _ (jsnum_math sin cos) Color toCss
         (Drawing.Fill (Shape.PathShape (Shape.mkPath true unit_square))
                       (Drawing.mkFillStyle (Some RED)))) =
    [ Canvas.ctx_save;
      Canvas.ctx_set_fillStyle (toCss RED);
      Canvas.ctx_beginPath;
      Canvas.ctx_moveTo (Num 0) (Num 0);
      Canvas.ctx_lineTo (Num 1) (Num 0);
      Canvas.ctx_lineTo (Num 1) (Num 1);
      Canvas.ctx_lineTo (Num 0) (Num 1);
      Canvas.ctx_lineTo (Num 0) (Num 0);
      Canvas.ctx_fill None;
      Canvas.ctx_restore ].
Proof. intros. vm_compute. reflexivity. Qed.

(** C4.  On a path of 3-vectors [closePath] is the operation section 4.4
    describes: the path itself when it is empty, when its last subpath has
    at most one point, or when that subpath's final point equals its first
    component-wise; otherwise the last subpath extended by a copy of its
    first point, followed by a new subpath holding only that point.  And
    closePath(lineTo([7,8,9])([[[1,2,3],[4,5,6]]])) is
    [[[1,2,3],[4,5,6],[7,8,9],[1,2,3]],[[1,2,3]]]. *)
Theorem closePath_correct :
  (forall (num : Type) (N : JSNumber num) (p : @Path3D.Path3D num),
      Spec.points_are_Vector3 p ->
      Path3D.closePath p = Spec.closePath_spec p) /\
  Path3D.closePath (Path3D.lineTo (P3 7 8 9) [[P3 1 2 3; P3 4 5 6]]) =
    [ [P3 1 2 3; P3 4 5 6; P3 7 8 9; P3 1 2 3]; [P3 1 2 3] ].
Proof.
  split.
  - intros. now apply closePath_refines_spec.
  - vm_compute. reflexivity.
Qed.

Lemma closePath_correct_witness :
  Path3D.closePath [[P3 1 2 3; P3 4 5 6; P3 7 8 9]] =
  Spec.closePath_spec [[P3 1 2 3; P3 4 5 6; P3 7 8 9]].
Proof.
  apply (proj1 closePath_correct).
  repeat constructor.
Defined.

(** C10.  [moveTo], [lineTo] and [closePath] each keep every subpath
    non-empty, and so every path built from the empty path by finitely many
    of them has only non-empty subpaths. *)
Theorem subpaths_nonempty_invariant :
  forall (num : Type) (N : JSNumber num),
    (forall pt (p : @Path3D.Path3D num),
        Spec.subpaths_nonempty p -> Spec.subpaths_nonempty (Path3D.moveTo pt p)) /\
    (forall pt (p : @Path3D.Path3D num),
        Spec.subpaths_nonempty p -> Spec.subpaths_nonempty (Path3D.lineTo pt p)) /\
    (forall p : @Path3D.Path3D num,
        Spec.subpaths_nonempty p -> Spec.subpaths_nonempty (Path3D.closePath p)) /\
    (forall p : @Path3D.Path3D num,
        Spec.reachable p -> Spec.subpaths_nonempty p).
Proof.
  intros num N.
  split; [| split; [| split]].
  - intros. now apply moveTo_keeps_nonempty.
  - intros. now apply lineTo_keeps_nonempty.
  - intros. now apply closePath_keeps_nonempty.
  - intros p R. induction R as [| pt p _ IH | pt p _ IH | p _ IH].
    + constructor.
    + now apply moveTo_keeps_nonempty.
    + now apply lineTo_keeps_nonempty.
    + now apply closePath_keeps_nonempty.
Qed.

Lemma subpaths_nonempty_invariant_witness :
  Spec.subpaths_nonempty
    (Path3D.closePath
       (Path3D.lineTo (P3 1 1 0)
          (Path3D.lineTo (P3 1 0 0) (Path3D.moveTo (P3 0 0 0) [])))).
Proof.
  apply (proj2 (proj2 (proj2 (@subpaths_nonempty_invariant jsnum _)))).
  repeat constructor.
Defined.

(** ** Vec: the dot product *)

Section DotFacts.
Context {num : Type} {N : JSNumber num}.
Local Open Scope num_scope.

Local Abbreviation Vec := (@Vec.Vec num).

Lemma zip_rest_combine {A B C : Type} (f : A -> B -> C) (l : list A) (r : list B) :
  FpTs.zip_rest f l r = map (fun ab => f (fst ab) (snd ab)) (combine l r).
Proof.
  revert r. induction l as [|a l IH]; intros [|b r]; simpl; try reflexivity.
  now rewrite IH.
Qed.

(** On non-empty arrays [RNEA.zipWith] pairs the common indices. *)
Lemma dot_nonempty (a b : Vec) :
  a <> [] -> b <> [] -> Vec.dot b a = SpecAlgebra.sum_of_products a b.
Proof.
  intros Ha Hb.
  destruct a as [|x a]; [contradiction |].
  destruct b as [|y b]; [contradiction |].
  unfold Vec.dot, FpTs.reduce, FpTs.zipWith, SpecAlgebra.sum_of_products.
  simpl. now rewrite zip_rest_combine.
Qed.

Lemma combine_common_prefix {A B : Type} (l : list A) (r : list B) :
  combine (firstn (Nat.min (length l) (length r)) l)
          (firstn (Nat.min (length l) (length r)) r) = combine l r.
Proof.
  revert r. induction l as [|a l IH]; intros [|b r]; simpl; try reflexivity.
  now rewrite IH.
Qed.
End DotFacts.

(** C5, as amended.  For non-empty vectors [a] and [b], [dot(b)(a)] is the
    sum of the products a[i] * b[i] over the indices below the shorter
    length, added from 0 in index order; when the lengths agree this is the
    sum over all indices, the value the checked operation returns.  On
    mismatched lengths nothing aborts: the extra components of the longer
    vector are ignored. *)
Theorem dot_sums_common_indices :
  forall (num : Type) (N : JSNumber num) (a b : @Vec.Vec num),
    a <> [] -> b <> [] ->
    Vec.dot b a =
      SpecAlgebra.sum_of_products
        (firstn (Nat.min (length a) (length b)) a)
        (firstn (Nat.min (length a) (length b)) b)
    /\ (length a = length b ->
        Vec.dot b a = SpecAlgebra.sum_of_products a b
        /\ SpecAlgebra.dot_checked b a = Some (Vec.dot b a)).
Proof.
  intros num N a b Ha Hb. split.
  - rewrite dot_nonempty by assumption.
    unfold SpecAlgebra.sum_of_products. now rewrite combine_common_prefix.
  - intros L. rewrite dot_nonempty by assumption. split; [reflexivity |].
    unfold SpecAlgebra.dot_checked. now rewrite L, Nat.eqb_refl.
Qed.

Lemma dot_sums_common_indices_witness :
  Vec.dot [Num 1; Num 2] [Num 1; Num 2; Num 3] =
  SpecAlgebra.sum_of_products [Num 1; Num 2] [Num 1; Num 2].
Proof.
  apply (proj1 (@dot_sums_common_indices jsnum _
                  [Num 1; Num 2; Num 3] [Num 1; Num 2]%float
                  ltac:(discriminate) ltac:(discriminate))).
Defined.

(** C5, as stated, fails: on [1,2,3] and [1,2] the checked operation
    aborts, while [dot] returns 5, the dot product of [1,2] and [1,2]. *)
Lemma dot_mismatch_counterexample :
  length [Num 1; Num 2; Num 3] <> length [Num 1; Num 2] /\
  SpecAlgebra.dot_checked [Num 1; Num 2] [Num 1; Num 2; Num 3] = None /\
  Vec.dot [Num 1; Num 2] [Num 1; Num 2; Num 3] = Num 5 /\
  Vec.dot [Num 1; Num 2] [Num 1; Num 2; Num 3] =
    Vec.dot [Num 1; Num 2] [Num 1; Num 2].
Proof.
  split; [discriminate |].
  split; [reflexivity |].
  split; vm_compute; reflexivity.
Qed.

(** ** Mat: the rotation constructors *)

Lemma Num_0_neq_1 : Num 0 <> Num 1.
Proof.
  intros H.
  assert (E : PrimFloat.eqb (ToNumber (Num 0)) 0 =
              PrimFloat.eqb (ToNumber (Num 1)) 0) by now rewrite H.
  vm_compute in E. discriminate.
Qed.

(** C6 at the input where the code departs from it.  Whatever [Math.sin]
    and [Math.cos] are, [rotateX] and [rotateY] build the standard
    matrices, while the third row of [rotateZ(a)] is [0,0,0,0]: [rotateZ(a)]
    is not the standard rotation about z, and [rotateZ(0)] is not the
    identity. *)
Theorem rotateZ_third_row_zero :
  forall (sin cos : float -> float) (a : jsnum),
    let M := jsnum_math sin cos in
    Mat.rotateX a = SpecAlgebra.standard_rotateX a /\
    Mat.rotateY a = SpecAlgebra.standard_rotateY a /\
    nth 2 (Mat.rotateZ a) [] = [Num 0; Num 0; Num 0; Num 0] /\
    Mat.rotateZ a <> SpecAlgebra.standard_rotateZ a /\
    Mat.rotateZ (Num 0) <> Mat.identity.
Proof.
  intros sin cos a M.
  split; [reflexivity |]. split; [reflexivity |]. split; [reflexivity |].
  split; intros H.
  - apply (f_equal (fun m => SpecAlgebra.entry m 2 2)) in H.
    now apply Num_0_neq_1.
  - apply (f_equal (fun m => SpecAlgebra.entry m 2 2)) in H.
    now apply Num_0_neq_1.
Qed.

(** With [Math.sin(0) = 0] and [Math.cos(0) = 1], as ECMAScript requires,
    [rotateX(0)] and [rotateY(0)] equal the identity entry by entry under
    [===] (they hold [-0] where the identity holds [0]); [rotateZ(0)] does
    not. *)
Lemma rotations_at_zero (sin cos : float -> float) :
  sin 0%float = 0%float -> cos 0%float = 1%float ->
  let M := jsnum_math sin cos in
  SpecAlgebra.mat_strict_eq (Mat.rotateX (Num 0)) Mat.identity = true /\
  SpecAlgebra.mat_strict_eq (Mat.rotateY (Num 0)) Mat.identity = true /\
  SpecAlgebra.mat_strict_eq (Mat.rotateZ (Num 0)) Mat.identity = false.
Proof.
  intros Hs Hc M.
  assert (S0 : Mat.sin (Num 0) = Num 0).
  { unfold Mat.sin. cbn. change (0 * 0x1.921fb54442d18p+1 / 180)%float with 0%float.
    now rewrite Hs. }
  assert (C0 : Mat.cos (Num 0) = Num 1).
  { unfold Mat.cos. cbn. change (0 * 0x1.921fb54442d18p+1 / 180)%float with 0%float.
    now rewrite Hc. }
  unfold Mat.rotateX, Mat.rotateY, Mat.rotateZ. rewrite S0, C0.
  repeat split; vm_compute; reflexivity.
Qed.

(** ** Drawing: the monoid *)

Section DrawingMonoidFacts.
Context {num : Type} {N : JSNumber num} {M : JSMath num}.
Context {Color : Type}.

Local Abbreviation Drawing := (@Drawing.Drawing num Color).

Lemma monoidDrawing_concat_children (x y : Drawing) :
  Drawing.monoidDrawing_concat x y = Drawing.Many (SpecDrawing.children x ++ SpecDrawing.children y).
Proof. destruct x, y; reflexivity. Qed.

Lemma monoidDrawing_concat_assoc (x y z : Drawing) :
  Drawing.monoidDrawing_concat (Drawing.monoidDrawing_concat x y) z =
  Drawing.monoidDrawing_concat x (Drawing.monoidDrawing_concat y z).
Proof.
  rewrite !monoidDrawing_concat_children. cbn [SpecDrawing.children].
  now rewrite app_assoc.
Qed.

(** [Many [x]] issues the calls of [x]. *)
Lemma go_Many_singleton (toCss : Color -> String.string)
      (t : @Mat.Mat num) (x : Drawing) ctx w :
  snd (Drawing.go toCss t (Drawing.Many [x]) ctx w) =
  snd (Drawing.go toCss t x ctx w).
Proof.
  cbn [Drawing.go Canvas.traverseReaderIO].
  unfold Canvas.RIO_chain, Canvas.RIO_ask, Canvas.IO_of.
  now destruct (Drawing.go toCss t x ctx w).
Qed.
End DrawingMonoidFacts.

(** C7, as amended.  [monoidDrawing.concat] follows the merge rules (both
    [Many]: the children lists are appended; exactly one [Many]: the other
    operand is appended or prepended as a single child; neither:
    [Many([x, y])]) and is associative.  [Many([])] is a two-sided identity
    on the drawings of the form [Many(ds)]; combined with any other drawing
    [x], on either side, it gives [Many([x])], which is rendered by the
    same renderer calls as [x]. *)
Theorem monoidDrawing_laws :
  forall (num : Type) (N : JSNumber num) (M : JSMath num) (Color : Type)
         (toCss : Color -> String.string),
    (forall xs ys : list (@Drawing.Drawing num Color),
        Drawing.monoidDrawing_concat (Drawing.Many xs) (Drawing.Many ys) =
        Drawing.Many (xs ++ ys)) /\
    (forall xs (y : @Drawing.Drawing num Color),
        SpecDrawing.isMany y = false ->
        Drawing.monoidDrawing_concat (Drawing.Many xs) y =
        Drawing.Many (xs ++ [y])) /\
    (forall (x : @Drawing.Drawing num Color) ys,
        SpecDrawing.isMany x = false ->
        Drawing.monoidDrawing_concat x (Drawing.Many ys) =
        Drawing.Many (x :: ys)) /\
    (forall x y : @Drawing.Drawing num Color,
        SpecDrawing.isMany x = false -> SpecDrawing.isMany y = false ->
        Drawing.monoidDrawing_concat x y = Drawing.Many [x; y]) /\
    (forall x y z : @Drawing.Drawing num Color,
        Drawing.monoidDrawing_concat (Drawing.monoidDrawing_concat x y) z =
        Drawing.monoidDrawing_concat x (Drawing.monoidDrawing_concat y z)) /\
    (forall ds : list (@Drawing.Drawing num Color),
        Drawing.monoidDrawing_concat (Drawing.monoidDrawing_empty Color)
                                     (Drawing.Many ds) = Drawing.Many ds /\
        Drawing.monoidDrawing_concat (Drawing.Many ds)
                                     (Drawing.monoidDrawing_empty Color) =
        Drawing.Many ds) /\
    (forall x : @Drawing.Drawing num Color,
        SpecDrawing.isMany x = false ->
        Drawing.monoidDrawing_concat (Drawing.monoidDrawing_empty Color) x =
          Drawing.Many [x] /\
        Drawing.monoidDrawing_concat x (Drawing.monoidDrawing_empty Color) =
          Drawing.Many [x] /\
        forall t ctx w,
          snd (Drawing.go toCss t (Drawing.Many [x]) ctx w) =
          snd (Drawing.go toCss t x ctx w)).
Proof.
  intros num N M Color toCss.
  split; [| split; [| split; [| split; [| split; [| split]]]]].
  - intros xs ys. reflexivity.
  - intros xs y H. destruct y; try reflexivity. discriminate.
  - intros x ys H. destruct x; try reflexivity. discriminate.
  - intros x y Hx Hy. destruct x; try discriminate; destruct y;
      try discriminate; reflexivity.
  - apply monoidDrawing_concat_assoc.
  - intros ds. split.
    + reflexivity.
    + rewrite monoidDrawing_concat_children. cbn. now rewrite app_nil_r.
  - intros x H. split; [| split].
    + destruct x; try reflexivity. discriminate.
    + destruct x; try reflexivity. discriminate.
    + intros. apply go_Many_singleton.
Qed.

Lemma monoidDrawing_laws_witness :
  Drawing.monoidDrawing_concat
    (Drawing.Fill (Shape.PathShape (Shape.mkPath true unit_square))
                  (Drawing.mkFillStyle (Some tt)))
    (Drawing.Many []) =
  Drawing.Many
    [Drawing.Fill (Shape.PathShape (Shape.mkPath true unit_square))
                  (Drawing.mkFillStyle (Some tt))].
Proof.
  apply (proj1 (proj2 (proj2 (@monoidDrawing_laws jsnum _
           (jsnum_math (fun x => x) (fun x => x)) unit (fun _ => String.EmptyString)))));
    reflexivity.
Defined.

(** C7, as stated, fails: [Many([])] combined with a [Fill] drawing is not
    that drawing, on either side. *)
Lemma monoidDrawing_identity_counterexample :
  Drawing.monoidDrawing_concat
    (Drawing.monoidDrawing_empty unit)
    (Drawing.Fill (Shape.PathShape (Shape.mkPath true unit_square))
                  (Drawing.mkFillStyle (Some tt)))
  <> Drawing.Fill (Shape.PathShape (Shape.mkPath true unit_square))
                  (Drawing.mkFillStyle (Some tt)) /\
  Drawing.monoidDrawing_concat
    (Drawing.Fill (Shape.PathShape (Shape.mkPath true unit_square))
                  (Drawing.mkFillStyle (Some tt)))
    (Drawing.monoidDrawing_empty unit)
  <> Drawing.Fill (Shape.PathShape (Shape.mkPath true unit_square))
                  (Drawing.mkFillStyle (Some tt)).
Proof. split; discriminate. Qed.

(** ** Shape: [path] and [closed] *)

Section ShapeFacts.
Context {num : Type} {N : JSNumber num}.

Lemma append_points_fold (c : bool) (l : list (@Shape.Point num)) (b : Shape.Path) :
  fold_left (fun b a => Shape.mkPath c (FpTs.snoc (Shape.Path_points b) a)) l b =
  match l with
  | [] => b
  | _ :: _ => Shape.mkPath c (Shape.Path_points b ++ l)
  end.
Proof.
  revert b. induction l as [|a l IH]; intros b; [reflexivity |].
  cbn [fold_left]. rewrite IH. unfold FpTs.snoc.
  destruct l; cbn [Shape.Path_points]; [reflexivity |].
  now rewrite <- app_assoc.
Qed.

(** [path] collects the elements in order, with [closed = false]. *)
Lemma path_points {F : Type -> Type} {FF : Foldable F} (fa : F (@Shape.Point num)) :
  Shape.path fa = Shape.mkPath false (F_toList fa).
Proof.
  unfold Shape.path. rewrite F_reduce_toList, append_points_fold.
  now destruct (F_toList fa).
Qed.

(** On a non-empty sequence [closed] collects the elements in order,
    with [closed = true]. *)
Lemma closed_points_nonempty {F : Type -> Type} {FF : Foldable F}
      (fa : F (@Shape.Point num)) :
  F_toList fa <> [] -> Shape.closed fa = Shape.mkPath true (F_toList fa).
Proof.
  intros H. unfold Shape.closed. rewrite F_reduce_toList, append_points_fold.
  now destruct (F_toList fa).
Qed.
End ShapeFacts.

(** C9 at the input where the code departs from it: on the empty sequence
    (the empty array, or the option [none]) [closed] returns the fold's
    initial value [monoidPath.empty], whose [closed] flag is [false]. *)
Theorem closed_of_empty_sequence :
  forall (num : Type) (N : JSNumber num),
    Shape.closed (F := list) ([] : list (@Shape.Point num)) =
      Shape.mkPath false [] /\
    Shape.closed (F := option) (None : option (@Shape.Point num)) =
      Shape.mkPath false [] /\
    Shape.Path_closed (Shape.closed (F := list) ([] : list (@Shape.Point num)))
      <> true.
Proof.
  intros num N. split; [reflexivity |]. split; [reflexivity |]. discriminate.
Qed.

(** ** Mat: the shape of [transpose] and [concat] *)

Section MatShapeFacts.
Context {num : Type} {N : JSNumber num}.

Local Abbreviation Vec := (@Vec.Vec num).
Local Abbreviation Mat := (@Mat.Mat num).

Lemma mapWithIndex_index {A B : Type} (f : nat -> B) (l : list A) :
  FpTs.mapWithIndex (fun i _ => f i) l = map f (seq 0 (length l)).
Proof.
  unfold FpTs.mapWithIndex. generalize 0.
  induction l as [|a l IH]; intros s; [reflexivity |].
  simpl. f_equal. apply IH.
Qed.

Lemma map_nth_seq {A : Type} (l : list A) (d : A) :
  map (fun j => nth j l d) (seq 0 (length l)) = l.
Proof.
  induction l as [|a l IH]; [reflexivity |].
  simpl. f_equal. rewrite <- seq_shift, map_map. exact IH.
Qed.

(** [transpose] lists the columns, as many as the first row is long. *)
Lemma transpose_columns (Y : Mat) :
  Mat.transpose Y = SpecAlgebra.columns (length (hd [] Y)) Y.
Proof. unfold Mat.transpose. apply mapWithIndex_index. Qed.

(** [concat]: each row of [x] against each column of [y]. *)
Lemma concat_rows (X Y : Mat) :
  Mat.concat X Y =
  map (fun a => map (fun c => Vec.dot c a) (Mat.transpose Y)) X.
Proof.
  unfold Mat.concat. apply map_ext. intros a. now rewrite map_map.
Qed.

Lemma length_transpose (Y : Mat) :
  length (Mat.transpose Y) = length (hd [] Y).
Proof.
  rewrite transpose_columns. unfold SpecAlgebra.columns.
  now rewrite length_map, length_seq.
Qed.

Lemma nth_transpose (Y : Mat) (j : nat) :
  j < length (hd [] Y) -> nth j (Mat.transpose Y) [] = Mat.row j Y.
Proof.
  intros H. rewrite transpose_columns. unfold SpecAlgebra.columns.
  rewrite (nth_indep _ [] (Mat.row 0 Y)) by now rewrite length_map, length_seq.
  rewrite (map_nth (fun j => Mat.row j Y) (seq 0 (length (hd [] Y))) 0 j).
  now rewrite seq_nth.
Qed.

(** result[i][j] = dot(row i of X, column j of Y) *)
Lemma concat_entry (X Y : Mat) (i j : nat) :
  i < length X -> j < length (hd [] Y) ->
  SpecAlgebra.entry (Mat.concat X Y) i j = Vec.dot (Mat.row j Y) (nth i X []).
Proof.
  intros Hi Hj. unfold SpecAlgebra.entry. rewrite concat_rows.
  set (g := fun a : Vec => map (fun c => Vec.dot c a) (Mat.transpose Y)).
  rewrite (nth_indep _ [] (g [])) by now rewrite length_map.
  rewrite (map_nth g X [] i). unfold g.
  set (h := fun c : Vec => Vec.dot c (nth i X [])).
  rewrite (nth_indep _ undef (h [])) by now rewrite length_map, length_transpose.
  rewrite (map_nth h (Mat.transpose Y) [] j). unfold h.
  now rewrite nth_transpose.
Qed.

(** The columns of a product are the rows of the left factor against the
    columns of the right one. *)
Lemma transpose_concat (B C : Mat) :
  B <> [] ->
  Mat.transpose (Mat.concat B C) =
  map (fun c => map (fun b => Vec.dot c b) B) (Mat.transpose C).
Proof.
  intros HB. rewrite (transpose_columns (Mat.concat B C)).
  assert (L : length (hd [] (Mat.concat B C)) = length (Mat.transpose C)).
  { rewrite concat_rows. destruct B as [|b B]; [contradiction |].
    simpl. now rewrite length_map. }
  rewrite L. unfold SpecAlgebra.columns.
  rewrite <- (map_nth_seq (Mat.transpose C) []) at 2.
  rewrite map_map. apply map_ext_in. intros j Hj.
  apply in_seq in Hj. destruct Hj as [_ Hj]. simpl in Hj.
  unfold Mat.row. rewrite concat_rows, map_map.
  apply map_ext. intros b. unfold Vec.at_.
  set (h := fun c : Vec => Vec.dot c b).
  rewrite (nth_indep _ undef (h [])) by now rewrite length_map.
  now rewrite (map_nth h (Mat.transpose C) [] j).
Qed.
Lemma positive_length_nonempty {A : Type} (l : list A) (k : nat) :
  length l = k -> 0 < k -> l <> [].
Proof. intros L K ->. simpl in L. lia. Qed.

Lemma In_transpose_length (Y : Mat) (c : Vec) :
  In c (Mat.transpose Y) -> length c = length Y.
Proof.
  rewrite transpose_columns. unfold SpecAlgebra.columns.
  intros H. apply in_map_iff in H. destruct H as (j & <- & _).
  unfold Mat.row. apply length_map.
Qed.

Lemma is_matrix_first_row (n p : nat) (B : Mat) :
  SpecAlgebra.is_matrix n p B -> 0 < n -> length (hd [] B) = p.
Proof.
  intros [L R] K. destruct B as [|b B]; [simpl in L; lia |].
  now inversion R.
Qed.
End MatShapeFacts.

(** ** Binary64 arithmetic: the facts the matrix laws rest on *)

Module FloatFacts.
Import SpecFloat FloatOps FloatAxioms.
Local Open Scope float_scope.

(** *** 1 is a unit of the multiplication of finite doubles *)

Lemma digits_shift (m : positive) :
  Zdigits2 (Z.pos (4503599627370496 * m)) = (Zpos (digits2_pos m) + 52)%Z.
Proof.
  cbn [Pos.mul Zdigits2 digits2_pos].
  rewrite !Pos2Z.inj_succ.
  lia.
Qed.

Lemma shr_shift (m : positive) :
  iter_pos shr_1 52 (Build_shr_record (Z.pos (4503599627370496 * m)) false false)
  = Build_shr_record (Z.pos m) false false.
Proof.
  cbn [Pos.mul].
  cbv [iter_pos shr_1 orb].
  reflexivity.
Qed.

Lemma SFmul_one_l (s : bool) (m : positive) (e : Z) :
  bounded prec emax m e = true ->
  SFmul prec emax (S754_finite false 4503599627370496 (-52)) (S754_finite s m e)
  = S754_finite s m e.
Proof.
  intros B. unfold bounded in B. apply andb_true_iff in B. destruct B as [C L].
  unfold canonical_mantissa in C. apply Z.eqb_eq in C.
  unfold SFmul. rewrite xorb_false_l.
  unfold binary_round_aux, shr_fexp.
  rewrite digits_shift.
  replace (Z.pos (digits2_pos m) + 52 + (-52 + e))%Z
    with (Z.pos (digits2_pos m) + e)%Z by lia.
  rewrite C.
  replace (e - (-52 + e))%Z with 52%Z by lia.
  unfold shr at 1.
  change (shr_record_of_loc (Z.pos (4503599627370496 * m)) loc_Exact)
    with (Build_shr_record (Z.pos (4503599627370496 * m)) false false).
  rewrite shr_shift.
  cbn [shr_m loc_of_shr_record round_nearest_even shr_record_of_loc Zdigits2].
  replace (-52 + e + 52)%Z with e by lia.
  rewrite C, Z.sub_diag. cbn [shr shr_m]. now rewrite L.
Qed.

Lemma P_one : Prim2SF 1 = S754_finite false 4503599627370496 (-52).
Proof. vm_compute. reflexivity. Qed.

Lemma P_zero : Prim2SF 0 = S754_zero false.
Proof. vm_compute. reflexivity. Qed.

Lemma P_inf : Prim2SF infinity = S754_infinity false.
Proof. vm_compute. reflexivity. Qed.

Lemma SFmul_comm (x y : spec_float) : SFmul prec emax x y = SFmul prec emax y x.
Proof.
  destruct x as [sx|sx| |sx mx ex], y as [sy|sy| |sy my ey]; simpl;
    try reflexivity; try (now rewrite xorb_comm).
  now rewrite xorb_comm, Pos.mul_comm, Z.add_comm.
Qed.

Lemma SFeqb_refl_finite s m e :
  SFeqb (S754_finite s m e) (S754_finite s m e) = true.
Proof.
  unfold SFeqb, SFcompare. rewrite Z.compare_refl.
  change (Pos.compare_cont Eq m m) with (Pos.compare m m).
  rewrite Pos.compare_refl. now destruct s.
Qed.

Lemma SFeqb_finite_inv v s m e :
  SFeqb v (S754_finite s m e) = true -> v = S754_finite s m e.
Proof.
  unfold SFeqb, SFcompare.
  destruct v as [s'|s'| |s' m' e']; try discriminate.
  - destruct s; discriminate.
  - destruct s'; discriminate.
  - destruct s', s; try discriminate;
      destruct (Z.compare e' e) eqn:Ce; try discriminate;
      apply Z.compare_eq in Ce; subst e';
      change (Pos.compare_cont Eq m' m) with (Pos.compare m' m);
      destruct (Pos.compare m' m) eqn:Cm; try discriminate;
      apply Pos.compare_eq in Cm; now subst.
Qed.

Lemma SFeqb_zero_inv v s :
  SFeqb v (S754_zero s) = true -> exists s', v = S754_zero s'.
Proof.
  unfold SFeqb, SFcompare.
  destruct v as [s'|s'| |s' m' e']; try discriminate.
  - intros _. now exists s'.
  - destruct s'; discriminate.
  - destruct s'; discriminate.
Qed.

(** A finite double is a signed zero or a bounded mantissa and exponent. *)
Lemma finite_cases (x : float) :
  is_finite x = true ->
  (exists s, Prim2SF x = S754_zero s) \/
  (exists s m e, Prim2SF x = S754_finite s m e /\ bounded prec emax m e = true).
Proof.
  intros H. pose proof (Prim2SF_valid x) as V.
  unfold is_finite, is_nan, is_infinity in H.
  rewrite !eqb_spec, abs_spec, P_inf in H.
  destruct (Prim2SF x) as [s|s| |s m e] eqn:E;
    try (destruct s; discriminate); try discriminate.
  - left. now exists s.
  - right. now exists s, m, e.
Qed.

Lemma finite_of_zero (x : float) s :
  Prim2SF x = S754_zero s -> is_finite x = true.
Proof.
  intros E. unfold is_finite, is_nan, is_infinity.
  rewrite !eqb_spec, abs_spec, P_inf, E. reflexivity.
Qed.

Lemma finite_of_finite (x : float) s m e :
  Prim2SF x = S754_finite s m e -> is_finite x = true.
Proof.
  intros E. unfold is_finite, is_nan, is_infinity.
  rewrite !eqb_spec, abs_spec, P_inf, E. rewrite SFeqb_refl_finite. reflexivity.
Qed.

Lemma is_zero_cases (z : float) :
  is_zero z = true <-> exists s, Prim2SF z = S754_zero s.
Proof.
  unfold is_zero. rewrite eqb_spec. change zero with 0. rewrite P_zero. split.
  - apply SFeqb_zero_inv.
  - intros [s ->]. reflexivity.
Qed.

Lemma fl_mul_comm (x y : float) : x * y = y * x.
Proof. apply Prim2SF_inj. rewrite !mul_spec. apply SFmul_comm. Qed.

Lemma fl_one_mul (a : float) : is_finite a = true -> 1 * a = a.
Proof.
  intros H. apply Prim2SF_inj. rewrite mul_spec, P_one.
  destruct (finite_cases a H) as [[s ->] | (s & m & e & -> & B)].
  - reflexivity.
  - now apply SFmul_one_l.
Qed.

Lemma fl_mul_one (a : float) : is_finite a = true -> a * 1 = a.
Proof. intros H. rewrite fl_mul_comm. now apply fl_one_mul. Qed.

(** *** Zeros: 0 times a finite double, and sums with a zero *)

Lemma fl_zero_mul (a : float) : is_finite a = true -> is_zero (0 * a) = true.
Proof.
  intros H. apply is_zero_cases. rewrite mul_spec, P_zero.
  destruct (finite_cases a H) as [[s ->] | (s & m & e & -> & B)];
    eexists; reflexivity.
Qed.

Lemma fl_mul_zero (a : float) : is_finite a = true -> is_zero (a * 0) = true.
Proof. intros H. rewrite fl_mul_comm. now apply fl_zero_mul. Qed.

Lemma fl_zero_zero : is_zero 0 = true.
Proof. reflexivity. Qed.

Lemma fl_zero_add_zero (x y : float) :
  is_zero x = true -> is_zero y = true -> is_zero (x + y) = true.
Proof.
  rewrite !is_zero_cases. intros [sx Ex] [sy Ey].
  rewrite add_spec, Ex, Ey. destruct sx, sy; eexists; reflexivity.
Qed.

Lemma fl_zero_add (z a : float) :
  is_zero z = true -> is_finite a = true -> (z + a =? a) = true.
Proof.
  rewrite is_zero_cases. intros [sz Ez] H.
  rewrite eqb_spec, add_spec, Ez.
  destruct (finite_cases a H) as [[s ->] | (s & m & e & -> & B)].
  - destruct sz, s; reflexivity.
  - cbn. apply SFeqb_refl_finite.
Qed.

Lemma fl_add_zero (s a z : float) :
  (s =? a) = true -> is_finite a = true -> is_zero z = true ->
  (s + z =? a) = true.
Proof.
  intros E H Z. apply is_zero_cases in Z. destruct Z as [sz Ez].
  rewrite eqb_spec in E. rewrite eqb_spec, add_spec, Ez.
  destruct (finite_cases a H) as [[sa Ea] | (sa & m & e & Ea & B)];
    rewrite Ea in *.
  - apply SFeqb_zero_inv in E. destruct E as [s' ->].
    destruct s', sz; reflexivity.
  - apply SFeqb_finite_inv in E. rewrite E. cbn. apply SFeqb_refl_finite.
Qed.

(** *** [=?] against a finite double *)

Lemma fl_eqb_finite (s a : float) :
  (s =? a) = true -> is_finite a = true -> is_finite s = true.
Proof.
  intros E H. rewrite eqb_spec in E.
  destruct (finite_cases a H) as [[sa Ea] | (sa & m & e & Ea & B)];
    rewrite Ea in E.
  - apply SFeqb_zero_inv in E. destruct E as [s' E]. now apply finite_of_zero in E.
  - apply SFeqb_finite_inv in E. now apply finite_of_finite in E.
Qed.

Lemma fl_eqb_trans (x y z : float) :
  (x =? y) = true -> (y =? z) = true -> is_finite z = true -> (x =? z) = true.
Proof.
  intros E1 E2 H. rewrite eqb_spec in *.
  destruct (finite_cases z H) as [[sa Ea] | (sa & m & e & Ea & B)];
    rewrite Ea in *.
  - apply SFeqb_zero_inv in E2. destruct E2 as [s' E2]. rewrite E2 in E1.
    apply SFeqb_zero_inv in E1. destruct E1 as [s'' ->]. reflexivity.
  - apply SFeqb_finite_inv in E2. rewrite E2 in E1.
    apply SFeqb_finite_inv in E1. rewrite E1. apply SFeqb_refl_finite.
Qed.

(** *** Rounding a non-negative mantissa never gives NaN *)

Lemma shr_1_nonneg (mrs : shr_record) :
  (0 <= shr_m mrs)%Z -> (0 <= shr_m (shr_1 mrs))%Z.
Proof. destruct mrs as [[|[p|p|]|p] r s]; cbn; lia. Qed.

Lemma iter_shr_1_nonneg (n : positive) :
  forall mrs, (0 <= shr_m mrs)%Z -> (0 <= shr_m (iter_pos shr_1 n mrs))%Z.
Proof.
  induction n as [n IH|n IH|]; intros mrs H; cbn [iter_pos];
    auto using shr_1_nonneg.
Qed.

Lemma shr_fexp_nonneg (m e : Z) (l : location) :
  (0 <= m)%Z -> (0 <= shr_m (fst (shr_fexp prec emax m e l)))%Z.
Proof.
  intros H. unfold shr_fexp, shr.
  assert (H0 : (0 <= shr_m (shr_record_of_loc m l))%Z)
    by (destruct l as [|[]]; exact H).
  destruct (fexp prec emax (Zdigits2 m + e) - e)%Z; cbn [fst];
    auto using iter_shr_1_nonneg.
Qed.

Lemma round_nearest_even_nonneg (m : Z) (l : location) :
  (0 <= m)%Z -> (0 <= round_nearest_even m l)%Z.
Proof.
  intros H. destruct l as [|[]]; cbn; try destruct (Z.even m); lia.
Qed.

Lemma binary_round_aux_not_nan (s : bool) (m e : Z) (l : location) :
  (0 <= m)%Z -> binary_round_aux prec emax s m e l <> S754_nan.
Proof.
  intros H. unfold binary_round_aux.
  pose proof (shr_fexp_nonneg e l H) as H1.
  destruct (shr_fexp prec emax m e l) as [mrs' e']. cbn [fst] in H1.
  pose proof (shr_fexp_nonneg e' loc_Exact
                (round_nearest_even_nonneg (loc_of_shr_record mrs') H1)) as H2.
  destruct (shr_fexp prec emax
              (round_nearest_even (shr_m mrs') (loc_of_shr_record mrs'))
              e' loc_Exact) as [mrs'' e''].
  cbn [fst] in H2.
  destruct (shr_m mrs'') as [|p|p]; try discriminate.
  - destruct (e'' <=? emax - prec)%Z; discriminate.
  - lia.
Qed.

Lemma SFmul_finite_not_nan sx mx ex sy my ey :
  SFmul prec emax (S754_finite sx mx ex) (S754_finite sy my ey) <> S754_nan.
Proof. unfold SFmul. apply binary_round_aux_not_nan. lia. Qed.

Lemma SFadd_finite_not_nan sx mx ex sy my ey :
  SFadd prec emax (S754_finite sx mx ex) (S754_finite sy my ey) <> S754_nan.
Proof.
  unfold SFadd, binary_normalize.
  destruct (cond_Zopp sx (Z.pos (fst (shl_align mx ex (Z.min ex ey)))) +
            cond_Zopp sy (Z.pos (fst (shl_align my ey (Z.min ex ey)))))%Z
    as [|p|p]; try discriminate;
    unfold binary_round;
    destruct (shl_align p (Z.min ex ey)
                (fexp prec emax (Z.pos (digits2_pos p) + Z.min ex ey)));
    apply binary_round_aux_not_nan; lia.
Qed.

Lemma SFeqb_refl (x : spec_float) : x <> S754_nan -> SFeqb x x = true.
Proof.
  destruct x as [s|s| |s m e]; intros H.
  - reflexivity.
  - now destruct s.
  - now contradiction H.
  - apply SFeqb_refl_finite.
Qed.

Lemma SFeqb_inf_inv v s :
  SFeqb v (S754_infinity s) = true -> v = S754_infinity s.
Proof.
  unfold SFeqb, SFcompare.
  destruct v as [s'|s'| |s' m' e']; try discriminate.
  - destruct s; discriminate.
  - destruct s', s; try discriminate; reflexivity.
  - destruct s; discriminate.
Qed.

Lemma SFeqb_nan_r v : SFeqb v S754_nan = false.
Proof. now destruct v. Qed.

(** A double that is [=?] to itself is not NaN. *)
Lemma fl_eqb_refl (a : float) : is_finite a = true -> (a =? a) = true.
Proof.
  intros H. rewrite eqb_spec.
  destruct (finite_cases a H) as [[s ->] | (s & m & e & -> & B)].
  - reflexivity.
  - apply SFeqb_refl_finite.
Qed.

Lemma fl_mul_not_nan (a b : float) :
  is_finite a = true -> is_finite b = true -> (a * b =? a * b) = true.
Proof.
  intros Ha Hb. rewrite eqb_spec, mul_spec. apply SFeqb_refl.
  destruct (finite_cases a Ha) as [[sa ->] | (sa & ma & ea & -> & Ba)];
    destruct (finite_cases b Hb) as [[sb ->] | (sb & mb & eb & -> & Bb)];
    try discriminate.
  apply SFmul_finite_not_nan.
Qed.

Lemma fl_add_not_nan (a b : float) :
  is_finite a = true -> is_finite b = true -> (a + b =? a + b) = true.
Proof.
  intros Ha Hb. rewrite eqb_spec, add_spec. apply SFeqb_refl.
  destruct (finite_cases a Ha) as [[sa ->] | (sa & ma & ea & -> & Ba)];
    destruct (finite_cases b Hb) as [[sb ->] | (sb & mb & eb & -> & Bb)];
    try discriminate.
  - destruct sa, sb; discriminate.
  - apply SFadd_finite_not_nan.
Qed.

(** *** Sums with a zero, against a double that is not NaN *)

Lemma fl_zero_add_nn (z a : float) :
  is_zero z = true -> (a =? a) = true -> (z + a =? a) = true.
Proof.
  rewrite is_zero_cases. intros [sz Ez] H.
  rewrite eqb_spec in H. rewrite eqb_spec, add_spec, Ez.
  destruct (Prim2SF a) as [s|s| |s m e]; try discriminate.
  - destruct sz, s; reflexivity.
  - exact H.
  - exact H.
Qed.

Lemma fl_add_zero_nn (s a z : float) :
  (s =? a) = true -> is_zero z = true -> (s + z =? a) = true.
Proof.
  intros E Z. apply is_zero_cases in Z. destruct Z as [sz Ez].
  rewrite eqb_spec in E. rewrite eqb_spec, add_spec, Ez.
  destruct (Prim2SF a) as [sa|sa| |sa m e] eqn:Ea.
  - apply SFeqb_zero_inv in E. destruct E as [s' ->].
    destruct s', sz; reflexivity.
  - apply SFeqb_inf_inv in E. rewrite E. now destruct sa.
  - now rewrite SFeqb_nan_r in E.
  - apply SFeqb_finite_inv in E. rewrite E. cbn. apply SFeqb_refl_finite.
Qed.

(** Adding the same finite double to both sides of a [=?]. *)
Lemma fl_add_cong (s a b : float) :
  (s =? a) = true -> is_finite a = true -> is_finite b = true ->
  (s + b =? a + b) = true.
Proof.
  intros E Ha Hb. pose proof (fl_add_not_nan a b Ha Hb) as NN.
  rewrite eqb_spec in E. rewrite eqb_spec, add_spec in NN.
  rewrite eqb_spec, !add_spec.
  destruct (finite_cases a Ha) as [[sa Ea] | (sa & ma & ea & Ea & Ba)];
    rewrite Ea in *.
  - apply SFeqb_zero_inv in E. destruct E as [s' ->].
    destruct (finite_cases b Hb) as [[sb ->] | (sb & mb & eb & -> & Bb)].
    + destruct s', sa, sb; reflexivity.
    + cbn. apply SFeqb_refl_finite.
  - apply SFeqb_finite_inv in E. rewrite E. exact NN.
Qed.

Lemma fl_finite_0 : is_finite 0 = true.
Proof. reflexivity. Qed.

Lemma fl_finite_1 : is_finite 1 = true.
Proof. reflexivity. Qed.

(** Sums of products in which every product but at most one has a factor 0. *)
Ltac fl_fin := first [assumption | reflexivity].

Ltac fl_zero :=
  lazymatch goal with
  | |- is_zero 0 = true => reflexivity
  | |- is_zero (0 * _) = true => apply fl_zero_mul; fl_fin
  | |- is_zero (_ * 0) = true => apply fl_mul_zero; fl_fin
  | |- is_zero (_ + _) = true => apply fl_zero_add_zero; fl_zero
  end.

Ltac fl_nn :=
  first [ reflexivity
        | apply fl_eqb_refl; fl_fin
        | apply fl_mul_not_nan; fl_fin
        | apply fl_add_not_nan; fl_fin ].

Ltac fl_sum :=
  match goal with
  | |- (?a =? ?a) = true => fl_nn
  | |- (?s + ?a =? ?a) = true => apply fl_zero_add_nn; [fl_zero | fl_nn]
  | |- (?s + ?z =? ?a) = true => apply fl_add_zero_nn; [fl_sum | fl_zero]
  | |- (?s + ?b =? ?a + ?b) = true =>
    apply fl_add_cong; [fl_sum | fl_fin | fl_fin]
  | |- (?x =? 0) = true => change (is_zero x = true); fl_zero
  end.

Ltac fl_entries :=
  cbn; rewrite ?fl_one_mul, ?fl_mul_one by fl_fin;
  repeat (apply andb_true_iff; split); try reflexivity; fl_sum.
End FloatFacts.

(** ** Mat: the identity matrix on finite doubles *)

Section MatUnitDoubles.
Import FloatFacts.

Local Abbreviation Vec := (@Vec.Vec jsnum).
Local Abbreviation Mat := (@Mat.Mat jsnum).

Lemma isFinite_Num (x : jsnum) :
  isFinite x = true -> exists f, x = Num f /\ is_finite f = true.
Proof.
  destruct x as [f|]; intros H.
  - now exists f.
  - vm_compute in H. discriminate.
Qed.

(** A row of four finite numbers, spelt out. *)
Lemma finite_row_4 (r : Vec) :
  length r = 4 -> Forall (fun x => isFinite x = true) r ->
  exists a0 a1 a2 a3,
    r = [Num a0; Num a1; Num a2; Num a3] /\
    is_finite a0 = true /\ is_finite a1 = true /\
    is_finite a2 = true /\ is_finite a3 = true.
Proof.
  intros L F.
  destruct r as [|x0 [|x1 [|x2 [|x3 [|? ?]]]]]; try discriminate.
  inversion_clear F as [|? ? F0 F']. inversion_clear F' as [|? ? F1 F''].
  inversion_clear F'' as [|? ? F2 F''']. inversion_clear F''' as [|? ? F3 _].
  destruct (isFinite_Num _ F0) as (a0 & -> & H0).
  destruct (isFinite_Num _ F1) as (a1 & -> & H1).
  destruct (isFinite_Num _ F2) as (a2 & -> & H2).
  destruct (isFinite_Num _ F3) as (a3 & -> & H3).
  now exists a0, a1, a2, a3.
Qed.

Lemma row_times_identity (r : Vec) :
  length r = 4 -> Forall (fun x => isFinite x = true) r ->
  Spec.componentwise_eq
    (map (fun c => Vec.dot c r) (Mat.transpose Mat.identity)) r = true.
Proof.
  intros L F.
  destruct (finite_row_4 L F) as (a0 & a1 & a2 & a3 & -> & H0 & H1 & H2 & H3).
  fl_entries.
Qed.

Lemma mat_strict_eq_map (f : Vec -> Vec) (g : Vec -> Vec) (A : Mat) :
  Forall (fun r => Spec.componentwise_eq (f r) (g r) = true) A ->
  SpecAlgebra.mat_strict_eq (map f A) (map g A) = true.
Proof.
  induction 1 as [|r A Hr _ IH]; [reflexivity |].
  cbn [map SpecAlgebra.mat_strict_eq]. now rewrite Hr, IH.
Qed.

Lemma concat_identity_r_doubles (m : nat) (A : Mat) :
  SpecAlgebra.is_matrix m 4 A -> SpecFinite.finite_entries A ->
  SpecAlgebra.mat_strict_eq (Mat.concat A Mat.identity) A = true.
Proof.
  intros [_ R] F. rewrite concat_rows.
  rewrite <- (map_id A) at 2. apply mat_strict_eq_map.
  unfold SpecFinite.finite_entries in F.
  rewrite Forall_forall in *. intros r Hr.
  apply row_times_identity; [now apply R | now apply F].
Qed.

Lemma concat_identity_l_doubles (A : Mat) :
  SpecAlgebra.is_matrix 4 4 A -> SpecFinite.finite_entries A ->
  SpecAlgebra.mat_strict_eq (Mat.concat Mat.identity A) A = true.
Proof.
  intros [L R] F.
  destruct A as [|r0 [|r1 [|r2 [|r3 [|? ?]]]]]; try discriminate. clear L.
  inversion_clear R as [|? ? L0 R']. inversion_clear R' as [|? ? L1 R''].
  inversion_clear R'' as [|? ? L2 R''']. inversion_clear R''' as [|? ? L3 _].
  inversion_clear F as [|? ? F0 F']. inversion_clear F' as [|? ? F1 F''].
  inversion_clear F'' as [|? ? F2 F''']. inversion_clear F''' as [|? ? F3 _].
  destruct (finite_row_4 L0 F0) as (a0 & a1 & a2 & a3 & -> & ? & ? & ? & ?).
  destruct (finite_row_4 L1 F1) as (b0 & b1 & b2 & b3 & -> & ? & ? & ? & ?).
  destruct (finite_row_4 L2 F2) as (c0 & c1 & c2 & c3 & -> & ? & ? & ? & ?).
  destruct (finite_row_4 L3 F3) as (d0 & d1 & d2 & d3 & -> & ? & ? & ? & ?).
  fl_entries.
Qed.
End MatUnitDoubles.

(** * Further properties of the code *)

(** ** Path3D: what the builder keeps *)

Section Path3DMore.
Context {num : Type} {N : JSNumber num}.

Local Abbreviation Path3D := (@Path3D.Path3D num).
Local Abbreviation Vec := (@Vec.Vec num).

Lemma moveTo_keeps_finite (pt : Vec) (p : Path3D) :
  SpecRender.points_finite p -> SpecRender.points_finite (Path3D.moveTo pt p).
Proof.
  intros H. destruct (Path3D.isPointFinite pt) eqn:F.
  - rewrite moveTo_finite by exact F.
    apply Forall_app. split; [exact H |]. repeat constructor. exact F.
  - now rewrite moveTo_not_finite by exact F.
Qed.

Lemma lineTo_keeps_finite (pt : Vec) (p : Path3D) :
  SpecRender.points_finite p -> SpecRender.points_finite (Path3D.lineTo pt p).
Proof.
  intros H. destruct (Path3D.isPointFinite pt) eqn:F.
  - destruct (snoc_cases p) as [-> | (q & cur & ->)].
    + rewrite lineTo_empty. now apply moveTo_keeps_finite.
    + rewrite lineTo_snoc by exact F.
      apply Forall_app in H. destruct H as [Hq Hc].
      apply Forall_app. split; [exact Hq |].
      constructor; [| constructor].
      apply Forall_app. split; [now inversion Hc |].
      repeat constructor. exact F.
  - now rewrite lineTo_not_finite by exact F.
Qed.

Lemma closePath_keeps_finite (p : Path3D) :
  SpecRender.points_finite p -> SpecRender.points_finite (Path3D.closePath p).
Proof.
  intros H.
  destruct (snoc_cases p) as [-> | (q & cur & ->)]; [exact H |].
  rewrite closePath_snoc.
  destruct (Nat.ltb 1 (length cur)) eqn:L; [| exact H].
  destruct (Path3D.same_ends _ _); [exact H |].
  apply Forall_app in H. destruct H as [Hq Hc].
  assert (Hcur : Forall (fun pt => Path3D.isPointFinite pt = true) cur)
    by now inversion Hc.
  assert (Hs : Path3D.isPointFinite (nth 0 cur []) = true).
  { rewrite Forall_forall in Hcur. apply Hcur. apply nth_In.
    apply Nat.ltb_lt in L. lia. }
  apply Forall_app. split; [exact Hq |].
  constructor; [| constructor; [| constructor]].
  - apply Forall_app. split; [exact Hcur |]. repeat constructor. exact Hs.
  - repeat constructor. exact Hs.
Qed.
End Path3DMore.

(** X1.  Closing a path twice is closing it once: after [closePath] the
    last subpath is either one [closePath] leaves alone already or the new
    single-point subpath. *)
Theorem closePath_idempotent :
  forall (num : Type) (N : JSNumber num) (p : @Path3D.Path3D num),
    Path3D.closePath (Path3D.closePath p) = Path3D.closePath p.
Proof.
  intros num N p.
  destruct (snoc_cases p) as [-> | (q & cur & ->)]; [reflexivity |].
  rewrite (closePath_snoc q cur).
  destruct (Nat.ltb 1 (length cur)) eqn:L.
  - destruct (Path3D.same_ends (List.last cur []) (nth 0 cur [])) eqn:D.
    + rewrite closePath_snoc. now rewrite L, D.
    + change (q ++ [cur ++ [nth 0 cur []]; [nth 0 cur []]])
        with (q ++ [cur ++ [nth 0 cur []]] ++ [[nth 0 cur []]]).
      rewrite app_assoc. rewrite closePath_snoc. reflexivity.
  - rewrite closePath_snoc. now rewrite L.
Qed.

(** X2.  A line drawn after a closing [closePath] starts from the closing
    point: when the last subpath [cur] has at least two points and distinct
    ends, [lineTo pt] after [closePath] leaves [cur] closed by a copy of
    its first point and makes the new last subpath that first point
    followed by [pt]. *)
Theorem lineTo_after_closePath :
  forall (num : Type) (N : JSNumber num)
         (q : @Path3D.Path3D num) (cur : list (@Vec.Vec num)) (pt : @Vec.Vec num),
    1 < length cur ->
    Path3D.same_ends (List.last cur []) (nth 0 cur []) = false ->
    Path3D.isPointFinite pt = true ->
    Path3D.lineTo pt (Path3D.closePath (q ++ [cur])) =
    q ++ [cur ++ [nth 0 cur []]; [nth 0 cur []; pt]].
Proof.
  intros num N q cur pt L D F.
  rewrite closePath_snoc. apply Nat.ltb_lt in L. rewrite L, D.
  change (q ++ [cur ++ [nth 0 cur []]; [nth 0 cur []]])
    with (q ++ [cur ++ [nth 0 cur []]] ++ [[nth 0 cur []]]).
  rewrite app_assoc, lineTo_snoc by exact F.
  now rewrite <- app_assoc.
Qed.

Lemma lineTo_after_closePath_witness :
  Path3D.lineTo (P3 5 5 0)
    (Path3D.closePath ([] ++ [[P3 0 0 0; P3 1 0 0; P3 1 1 0]])) =
  [] ++ [[P3 0 0 0; P3 1 0 0; P3 1 1 0] ++ [P3 0 0 0]; [P3 0 0 0; P3 5 5 0]].
Proof.
  apply (@lineTo_after_closePath jsnum _ [] [P3 0 0 0; P3 1 0 0; P3 1 1 0]
           (P3 5 5 0)).
  - simpl. lia.
  - vm_compute. reflexivity.
  - vm_compute. reflexivity.
Defined.

(** X3.  Every point of a path built from the empty path by [moveTo],
    [lineTo] and [closePath] is finite: no operation stores a point with a
    NaN or infinite coordinate among the first three. *)
Theorem reachable_points_finite :
  forall (num : Type) (N : JSNumber num) (p : @Path3D.Path3D num),
    Spec.reachable p -> SpecRender.points_finite p.
Proof.
  intros num N p R. induction R as [| pt p _ IH | pt p _ IH | p _ IH].
  - constructor.
  - now apply moveTo_keeps_finite.
  - now apply lineTo_keeps_finite.
  - now apply closePath_keeps_finite.
Qed.

Lemma reachable_points_finite_witness :
  SpecRender.points_finite
    (Path3D.closePath
       (Path3D.lineTo (P3 1 1 0)
          (Path3D.lineTo (P3 nan 0 0) (Path3D.moveTo (P3 0 0 0) [])))).
Proof.
  apply (@reachable_points_finite jsnum _).
  repeat constructor.
Defined.

(** X4.  Read as one flat sequence of points, [moveTo pt] and [lineTo pt]
    do the same thing: they append [pt] when it is finite and nothing
    otherwise; no earlier point is changed, moved or removed. *)
Theorem moveTo_lineTo_flat_points :
  forall (num : Type) (N : JSNumber num)
         (pt : @Vec.Vec num) (p : @Path3D.Path3D num),
    List.concat (Path3D.moveTo pt p) =
      List.concat p ++ (if Path3D.isPointFinite pt then [pt] else []) /\
    List.concat (Path3D.lineTo pt p) =
      List.concat p ++ (if Path3D.isPointFinite pt then [pt] else []).
Proof.
  intros num N pt p.
  destruct (Path3D.isPointFinite pt) eqn:F.
  - split.
    + rewrite moveTo_finite by exact F. now rewrite concat_app.
    + destruct (snoc_cases p) as [-> | (q & cur & ->)].
      * rewrite lineTo_empty, moveTo_finite by exact F. reflexivity.
      * rewrite lineTo_snoc by exact F. rewrite !concat_app. simpl.
        now rewrite !app_nil_r, app_assoc.
  - rewrite moveTo_not_finite, lineTo_not_finite by exact F.
    now rewrite app_nil_r.
Qed.

(** X5.  [moveTo] of a finite point adds exactly one subpath; [lineTo]
    never changes the number of subpaths of a non-empty path, and on the
    empty path it adds one subpath exactly when the point is finite. *)
Theorem moveTo_lineTo_subpath_count :
  forall (num : Type) (N : JSNumber num)
         (pt : @Vec.Vec num) (p : @Path3D.Path3D num),
    length (Path3D.moveTo pt p) =
      length p + (if Path3D.isPointFinite pt then 1 else 0) /\
    length (Path3D.lineTo pt p) =
      match p with
      | [] => if Path3D.isPointFinite pt then 1 else 0
      | _ :: _ => length p
      end.
Proof.
  intros num N pt p.
  destruct (Path3D.isPointFinite pt) eqn:F.
  - split.
    + rewrite moveTo_finite by exact F. now rewrite length_app.
    + destruct (snoc_cases p) as [-> | (q & cur & ->)].
      * rewrite lineTo_empty, moveTo_finite by exact F. reflexivity.
      * rewrite lineTo_snoc by exact F.
        destruct (q ++ [cur]) eqn:E; [destruct q; discriminate |].
        rewrite <- E. now rewrite !length_app.
  - rewrite moveTo_not_finite, lineTo_not_finite by exact F.
    split; [lia | now destruct p].
Qed.

(** ** renderShape and toCoords on every shape *)

Section RenderShapeMore.
Context {num : Type} {N : JSNumber num}.

Local Abbreviation Vec := (@Vec.Vec num).

Lemma fold_left_app_concat {A B : Type} (f : A -> list B) (l : list A) (acc : list B) :
  fold_left (fun b a => b ++ f a) l acc = acc ++ List.concat (map f l).
Proof.
  revert acc. induction l as [|a l IH]; intros acc; simpl.
  - now rewrite app_nil_r.
  - rewrite IH. now rewrite app_assoc.
Qed.

Lemma Forall_removelast {A : Type} (P : A -> Prop) (l : list A) :
  Forall P l -> Forall P (removelast l).
Proof.
  intros H. destruct (snoc_cases l) as [-> | (l' & x & ->)]; [exact H |].
  rewrite removelast_snoc. now apply Forall_app in H.
Qed.

Lemma finite_points_path_invariants (pts : list Vec) :
  let built := match filter Path3D.isPointFinite pts with
               | [] => []
               | fs => [fs]
               end in
  Spec.subpaths_nonempty built /\ SpecRender.points_finite built.
Proof.
  intros built. unfold built.
  destruct (filter Path3D.isPointFinite pts) as [|a l] eqn:E.
  - split; constructor.
  - split.
    + constructor; [discriminate | constructor].
    + constructor; [| constructor].
      rewrite <- E. apply Forall_forall. intros x Hx.
      now apply filter_In in Hx.
Qed.

Lemma renderShape_open_filter (pts : list Vec) :
  Drawing.renderShape (Shape.PathShape (Shape.mkPath false pts)) =
  match filter Path3D.isPointFinite pts with
  | [] => []
  | fs => [fs]
  end.
Proof.
  destruct pts as [|head tail]; [reflexivity |].
  cbn [Drawing.renderShape FpTs.foldLeft Shape.Path_closed Shape.Path_points].
  apply moveTo_lineTo_all.
Qed.

Lemma renderShape_composite_concat (shapes : list (@Shape.Shape num)) :
  Drawing.renderShape (Shape.Composite shapes) =
  List.concat (map Drawing.renderShape shapes).
Proof.
  cbn [Drawing.renderShape].
  now rewrite (fold_left_app_concat Drawing.renderShape shapes []).
Qed.

Lemma renderShape_invariants (shape : @Shape.Shape num) :
  Spec.subpaths_nonempty (Drawing.renderShape shape) /\
  SpecRender.points_finite (Drawing.renderShape shape).
Proof.
  revert shape. fix IH 1. intros [shapes | [closed pts]].
  - rewrite renderShape_composite_concat.
    induction shapes as [|a l IHl]; simpl.
    + split; constructor.
    + destruct (IH a) as [Ha1 Ha2]. destruct IHl as [Hl1 Hl2].
      split; apply Forall_app; split; assumption.
  - destruct (finite_points_path_invariants pts) as [H1 H2].
    destruct closed.
    + rewrite renderShape_closed_filter. split.
      * apply Forall_removelast. now apply closePath_keeps_nonempty.
      * apply Forall_removelast. now apply closePath_keeps_finite.
    + rewrite renderShape_open_filter. now split.
Qed.

Lemma nonEmptyOnly_id {A : Type} (xs : list (list A)) :
  Forall (fun x => x <> []) xs -> Drawing.nonEmptyOnly xs = xs.
Proof.
  intros H. unfold Drawing.nonEmptyOnly.
  induction H as [|x xs Hx _ IH]; [reflexivity |].
  simpl. destruct x; [contradiction |]. simpl. now rewrite IH.
Qed.

Lemma length_concat_rows (X Y : @Mat.Mat num) :
  length (Mat.concat X Y) = length X /\
  Forall (fun r => length r = length (hd [] Y)) (Mat.concat X Y).
Proof.
  rewrite concat_rows. split; [apply length_map |].
  apply Forall_forall. intros r Hr. apply in_map_iff in Hr.
  destruct Hr as (a & <- & _). now rewrite length_map, length_transpose.
Qed.
End RenderShapeMore.

(** X6.  An open [Path] shape renders to at most one subpath: none when no
    point is finite, otherwise exactly the finite points, in order. *)
Theorem renderShape_open_path :
  forall (num : Type) (N : JSNumber num) (pts : list (@Vec.Vec num)),
    Drawing.renderShape (Shape.PathShape (Shape.mkPath false pts)) =
    match filter Path3D.isPointFinite pts with
    | [] => []
    | fs => [fs]
    end.
Proof. intros. apply renderShape_open_filter. Qed.

(** X7.  A [Composite] shape renders to the concatenation of its children's
    renderings, in order; so the empty composite renders to the empty path
    and a composite of two lists of children renders to the first list's
    subpaths followed by the second's. *)
Theorem renderShape_composite :
  forall (num : Type) (N : JSNumber num) (xs ys : list (@Shape.Shape num)),
    Drawing.renderShape (Shape.Composite xs) =
      List.concat (map Drawing.renderShape xs) /\
    Drawing.renderShape (Shape.Composite (xs ++ ys)) =
      Drawing.renderShape (Shape.Composite xs)
      ++ Drawing.renderShape (Shape.Composite ys).
Proof.
  intros num N xs ys. split.
  - apply renderShape_composite_concat.
  - rewrite !renderShape_composite_concat. now rewrite map_app, concat_app.
Qed.

(** X8.  Whatever the shape, every subpath [renderShape] returns holds at
    least one point and every point it returns is finite; hence the
    removal of empty subpaths in [toCoords] never removes anything. *)
Theorem renderShape_subpaths_nonempty_finite :
  forall (num : Type) (N : JSNumber num) (shape : @Shape.Shape num),
    Spec.subpaths_nonempty (Drawing.renderShape shape) /\
    SpecRender.points_finite (Drawing.renderShape shape) /\
    Drawing.nonEmptyOnly (Drawing.renderShape shape) = Drawing.renderShape shape.
Proof.
  intros num N shape.
  destruct (renderShape_invariants shape) as [H1 H2].
  split; [exact H1 |]. split; [exact H2 |].
  now apply nonEmptyOnly_id.
Qed.

(** X9.  Whatever the transform, [toCoords] returns one list of points per
    subpath of [renderShape], each with as many points as that subpath,
    and every point it returns has four coordinates. *)
Theorem toCoords_keeps_structure :
  forall (num : Type) (N : JSNumber num)
         (shape : @Shape.Shape num) (transform : @Mat.Mat num),
    map (@length _) (Drawing.toCoords shape transform) =
      map (@length _) (Drawing.renderShape shape) /\
    Forall (Forall (fun pt => length pt = 4)) (Drawing.toCoords shape transform).
Proof.
  intros num N shape transform. unfold Drawing.toCoords.
  destruct (renderShape_invariants shape) as [H1 _].
  rewrite nonEmptyOnly_id by exact H1.
  split.
  - rewrite !map_map. apply map_ext. intros sub. unfold Mat.mul.
    destruct (length_concat_rows (Mat.concat (map (fun p => FpTs.snoc p n1) sub)
                                             transform) Drawing.VT) as [-> _].
    destruct (length_concat_rows (map (fun p => FpTs.snoc p n1) sub) transform)
      as [-> _].
    apply length_map.
  - rewrite !map_map. apply Forall_forall. intros m Hm.
    apply in_map_iff in Hm. destruct Hm as (sub & <- & _). unfold Mat.mul.
    apply (length_concat_rows _ Drawing.VT).
Qed.

(** ** The interpreter: the calls it issues *)

Section RenderTrace.
Context {num : Type} {N : JSNumber num} {M : JSMath num}.
Context {Color : Type} (toCss : Color -> String.string).

Local Abbreviation Drawing := (@Drawing.Drawing num Color).
Local Abbreviation Mat := (@Mat.Mat num).
Local Abbreviation World := (@Canvas.World num).

Lemma traverse_lineTo_run (t : list (@Vec.Vec num)) ctx (w : World) :
  Canvas.traverseReaderIO Canvas.lineTo t ctx w =
  (map (fun _ => ctx) t,
   w ++ map (fun p => Canvas.ctx_lineTo (Vec.at_ 0 p) (Vec.at_ 1 p)) t).
Proof.
  revert w. induction t as [|p t IH]; intros w; simpl.
  - unfold Canvas.IO_of. now rewrite app_nil_r.
  - unfold Canvas.lineTo at 1, Canvas.call. rewrite IH.
    now rewrite <- app_assoc.
Qed.

Lemma renderSubPath_run (sub : list (@Vec.Vec num)) ctx (w : World) :
  Drawing.renderSubPath sub ctx w = (ctx, w ++ SpecRender.subpath_calls sub).
Proof.
  destruct sub as [|h t]; simpl.
  - unfold Canvas.RIO_ask, Canvas.IO_of. now rewrite app_nil_r.
  - unfold Canvas.RIO_chain, Canvas.RIO_ask, Canvas.IO_of, Canvas.moveTo,
      Canvas.call.
    rewrite traverse_lineTo_run. now rewrite <- app_assoc.
Qed.

Lemma traverse_renderSubPath_run (subs : list (list (@Vec.Vec num))) ctx (w : World) :
  Canvas.traverseReaderIO Drawing.renderSubPath subs ctx w =
  (map (fun _ => ctx) subs,
   w ++ List.concat (map SpecRender.subpath_calls subs)).
Proof.
  revert w. induction subs as [|sub subs IH]; intros w; simpl.
  - unfold Canvas.IO_of. now rewrite app_nil_r.
  - rewrite renderSubPath_run, IH. now rewrite <- app_assoc.
Qed.

Lemma go_Fill_run (t : Mat) shape style ctx (w : World) :
  Drawing.go toCss t (Drawing.Fill shape style) ctx w =
  (ctx,
   w ++ [Canvas.ctx_save] ++ SpecRender.fill_style_calls toCss style
     ++ [Canvas.ctx_beginPath]
     ++ List.concat (map SpecRender.subpath_calls (Drawing.toCoords shape t))
     ++ [Canvas.ctx_fill None; Canvas.ctx_restore]).
Proof.
  cbn [Drawing.go].
  unfold Canvas.withContext, Canvas.RIO_chainFirst, Canvas.RIO_chain,
    Canvas.RIO_ask, Canvas.IO_of, Canvas.save, Canvas.restore,
    Canvas.beginPath, Canvas.fill, Canvas.call, SpecRender.fill_style_calls.
  destruct style as [[c|]]; cbn [Drawing.applyStyle Drawing.FillStyle_color];
    unfold Canvas.setFillStyle, Canvas.RIO_ask, Canvas.IO_of, Canvas.call;
    rewrite traverse_renderSubPath_run;
    repeat rewrite <- app_assoc; reflexivity.
Qed.

Lemma go_Outline_run (t : Mat) shape style ctx (w : World) :
  Drawing.go toCss t (Drawing.Outline shape style) ctx w =
  (ctx,
   w ++ [Canvas.ctx_save] ++ SpecRender.outline_style_calls toCss style
     ++ [Canvas.ctx_beginPath]
     ++ List.concat (map SpecRender.subpath_calls (Drawing.toCoords shape t))
     ++ [Canvas.ctx_stroke; Canvas.ctx_restore]).
Proof.
  cbn [Drawing.go].
  unfold Canvas.withContext, Canvas.RIO_chainFirst, Canvas.RIO_chain,
    Canvas.RIO_ask, Canvas.IO_of, Canvas.save, Canvas.restore,
    Canvas.beginPath, Canvas.stroke, Canvas.call,
    SpecRender.outline_style_calls.
  destruct style as [[c|] [lw|]];
    cbn [Drawing.applyStyle Drawing.OutlineStyle_color
           Drawing.OutlineStyle_lineWidth];
    unfold Canvas.setStrokeStyle, Canvas.setLineWidth, Canvas.RIO_ask,
      Canvas.IO_of, Canvas.call;
    rewrite traverse_renderSubPath_run;
    repeat rewrite <- app_assoc; reflexivity.
Qed.

(** The interpreter returns the context it is given and extends the
    surface's history by calls that do not depend on that history. *)
Lemma go_run (d : Drawing) :
  forall (t : Mat) ctx (w : World),
    Drawing.go toCss t d ctx w =
    (ctx, w ++ Canvas.commands (Drawing.go toCss t d)).
Proof.
  revert d. fix IH 1. intros d t ctx w. destruct d as
      [shape style | shape style | ds | x y z d | x y z d | x y z d].
  - unfold Canvas.commands. rewrite !go_Outline_run. reflexivity.
  - unfold Canvas.commands. rewrite !go_Fill_run. reflexivity.
  - assert (T : forall ctx (w : World),
               Canvas.traverseReaderIO (Drawing.go toCss t) ds ctx w =
               (map (fun _ => ctx) ds,
                w ++ List.concat
                       (map (fun d => Canvas.commands (Drawing.go toCss t d)) ds))).
    { clear ctx w. induction ds as [|a l IHl]; intros ctx w; simpl.
      - unfold Canvas.IO_of. now rewrite app_nil_r.
      - rewrite (IH a t ctx w), IHl. now rewrite <- app_assoc. }
    unfold Canvas.commands. cbn [Drawing.go].
    unfold Canvas.RIO_chain, Canvas.RIO_ask, Canvas.IO_of.
    rewrite !T. reflexivity.
  - apply (IH d).
  - apply (IH d).
  - apply (IH d).
Qed.

Lemma commands_Many (t : Mat) (ds : list Drawing) :
  Canvas.commands (Drawing.go toCss t (Drawing.Many ds)) =
  List.concat (map (fun d => Canvas.commands (Drawing.go toCss t d)) ds).
Proof.
  unfold Canvas.commands at 1. cbn [Drawing.go].
  unfold Canvas.RIO_chain, Canvas.RIO_ask, Canvas.IO_of.
  assert (T : forall ctx (w : World),
             Canvas.traverseReaderIO (Drawing.go toCss t) ds ctx w =
             (map (fun _ => ctx) ds,
              w ++ List.concat
                     (map (fun d => Canvas.commands (Drawing.go toCss t d)) ds))).
  { induction ds as [|a l IHl]; intros ctx w; simpl.
    - unfold Canvas.IO_of. now rewrite app_nil_r.
    - rewrite (go_run a t ctx w), IHl. now rewrite <- app_assoc. }
  rewrite T. reflexivity.
Qed.

Lemma commands_children (t : Mat) (d : Drawing) :
  List.concat (map (fun d => Canvas.commands (Drawing.go toCss t d))
                   (SpecDrawing.children d)) =
  Canvas.commands (Drawing.go toCss t d).
Proof.
  destruct d; try (cbn [SpecDrawing.children map List.concat];
                   now rewrite app_nil_r).
  cbn [SpecDrawing.children]. now rewrite commands_Many.
Qed.
End RenderTrace.

Section RenderCount.
Context {num : Type} {N : JSNumber num} {M : JSMath num}.
Context {Color : Type} (toCss : Color -> String.string).

Local Abbreviation Command := (@Canvas.Command num).

Lemma count_app (f : Command -> bool) (a b : list Command) :
  SpecRender.count f (a ++ b) = SpecRender.count f a + SpecRender.count f b.
Proof. unfold SpecRender.count. now rewrite filter_app, length_app. Qed.

Lemma count_concat {A : Type} (f : Command -> bool) (g : A -> list Command)
      (l : list A) :
  SpecRender.count f (List.concat (map g l)) =
  list_sum (map (fun a => SpecRender.count f (g a)) l).
Proof.
  induction l as [|a l IH]; [reflexivity |].
  simpl. now rewrite count_app, IH.
Qed.

Lemma count_subpath_calls (f : Command -> bool) (subs : list (list (@Vec.Vec num))) :
  (forall x y, f (Canvas.ctx_moveTo x y) = false) ->
  (forall x y, f (Canvas.ctx_lineTo x y) = false) ->
  SpecRender.count f (List.concat (map SpecRender.subpath_calls subs)) = 0.
Proof.
  intros Hm Hl. rewrite count_concat.
  induction subs as [|sub subs IH]; [reflexivity |].
  simpl. rewrite IH, Nat.add_0_r.
  destruct sub as [|h t]; [reflexivity |].
  unfold SpecRender.count. simpl. rewrite Hm.
  induction t as [|p t IHt]; [reflexivity |].
  simpl. now rewrite Hl.
Qed.

Lemma count_Fill (f : Command -> bool) (t : @Mat.Mat num) shape
      (style : Drawing.FillStyle Color) :
  (forall x y, f (Canvas.ctx_moveTo x y) = false) ->
  (forall x y, f (Canvas.ctx_lineTo x y) = false) ->
  (forall s, f (Canvas.ctx_set_fillStyle s) = false) ->
  SpecRender.count f
    (Canvas.commands (Drawing.go toCss t (Drawing.Fill shape style))) =
  SpecRender.count f
    [Canvas.ctx_save; Canvas.ctx_beginPath; Canvas.ctx_fill None;
     Canvas.ctx_restore].
Proof.
  intros Hm Hl Hs. unfold Canvas.commands. rewrite go_Fill_run.
  cbn [snd]. rewrite !count_app, count_subpath_calls by assumption.
  assert (S0 : SpecRender.count f (SpecRender.fill_style_calls toCss style) = 0).
  { destruct style as [[c|]]; [| reflexivity].
    unfold SpecRender.fill_style_calls, SpecRender.count. simpl.
    now rewrite Hs. }
  rewrite S0. unfold SpecRender.count. simpl.
  destruct (f Canvas.ctx_save), (f Canvas.ctx_beginPath),
    (f (Canvas.ctx_fill None)), (f Canvas.ctx_restore); reflexivity.
Qed.

Lemma count_Outline (f : Command -> bool) (t : @Mat.Mat num) shape
      (style : @Drawing.OutlineStyle num Color) :
  (forall x y, f (Canvas.ctx_moveTo x y) = false) ->
  (forall x y, f (Canvas.ctx_lineTo x y) = false) ->
  (forall s, f (Canvas.ctx_set_strokeStyle s) = false) ->
  (forall w, f (Canvas.ctx_set_lineWidth w) = false) ->
  SpecRender.count f
    (Canvas.commands (Drawing.go toCss t (Drawing.Outline shape style))) =
  SpecRender.count f
    [Canvas.ctx_save; Canvas.ctx_beginPath; Canvas.ctx_stroke;
     Canvas.ctx_restore].
Proof.
  intros Hm Hl Hs Hw. unfold Canvas.commands. rewrite go_Outline_run.
  cbn [snd]. rewrite !count_app, count_subpath_calls by assumption.
  assert (S0 : SpecRender.count f (SpecRender.outline_style_calls toCss style) = 0).
  { destruct style as [[c|] [lw|]];
      unfold SpecRender.outline_style_calls, SpecRender.count; simpl;
      rewrite ?Hs, ?Hw; reflexivity. }
  rewrite S0. unfold SpecRender.count. simpl.
  destruct (f Canvas.ctx_save), (f Canvas.ctx_beginPath),
    (f Canvas.ctx_stroke), (f Canvas.ctx_restore); reflexivity.
Qed.

(** A call counted once in each kind of leaf and never among the style and
    path calls is issued once per leaf of the drawing. *)
Lemma count_once_per_leaf (f : Command -> bool) :
  (forall x y, f (Canvas.ctx_moveTo x y) = false) ->
  (forall x y, f (Canvas.ctx_lineTo x y) = false) ->
  (forall s, f (Canvas.ctx_set_fillStyle s) = false) ->
  (forall s, f (Canvas.ctx_set_strokeStyle s) = false) ->
  (forall w, f (Canvas.ctx_set_lineWidth w) = false) ->
  SpecRender.count f
    [Canvas.ctx_save; Canvas.ctx_beginPath; Canvas.ctx_fill None;
     Canvas.ctx_restore] = 1 ->
  SpecRender.count f
    [Canvas.ctx_save; Canvas.ctx_beginPath; Canvas.ctx_stroke;
     Canvas.ctx_restore] = 1 ->
  forall (d : @Drawing.Drawing num Color) (t : @Mat.Mat num),
    SpecRender.count f (Canvas.commands (Drawing.go toCss t d)) =
    SpecRender.leaves d.
Proof.
  intros Hm Hl Hf Hs Hw F1 O1. fix IH 1.
  intros d t. destruct d as
      [shape style | shape style | ds | x y z d | x y z d | x y z d].
  - rewrite count_Outline by assumption. exact O1.
  - rewrite count_Fill by assumption. exact F1.
  - rewrite commands_Many, count_concat. cbn [SpecRender.leaves].
    f_equal. induction ds as [|a l IHl]; [reflexivity |].
    simpl. now rewrite (IH a t), IHl.
  - apply (IH d).
  - apply (IH d).
  - apply (IH d).
Qed.
End RenderCount.

(** C3.  Under [Rotate(ax, ay, az, child)] with accumulated transform [T]
    the interpreter draws [child] with the transform
    T' = (RotateY(ay) . RotateX(ax)) . (T . RotateZ(az)), where [.] is
    [Mat.concat] and [mul(B)(A)] is [concat(A, B)].  Seen from the calls
    issued: a [Fill] or [Outline] leaf under the node draws the subpaths of
    [toCoords(shape, T')], every subpath of the shape, extended by the
    homogeneous 1, multiplied from the left onto [T'] and then onto the
    projection [VT]; any child issues the calls it issues when interpreted
    from [T'] directly; and the children of a [Many] under the node are all
    drawn from [T'], in order. *)
Theorem render_rotate_calls :
  forall (num : Type) (N : JSNumber num) (M : JSMath num)
         (Color : Type) (toCss : Color -> String.string)
         (ax ay az : @Shape.Angle num) (T : @Mat.Mat num),
    let T' :=
      Mat.concat
        (Mat.concat (Mat.rotateY (Shape.angle ay)) (Mat.rotateX (Shape.angle ax)))
        (Mat.concat T (Mat.rotateZ (Shape.angle az))) in
    (forall shape style,
        Canvas.commands
          (Drawing.go toCss T
             (Drawing.Rotate ax ay az (Drawing.Fill shape style))) =
        [Canvas.ctx_save] ++ SpecRender.fill_style_calls toCss style
        ++ [Canvas.ctx_beginPath]
        ++ List.concat (map SpecRender.subpath_calls (Drawing.toCoords shape T'))
        ++ [Canvas.ctx_fill None; Canvas.ctx_restore]) /\
    (forall shape style,
        Canvas.commands
          (Drawing.go toCss T
             (Drawing.Rotate ax ay az (Drawing.Outline shape style))) =
        [Canvas.ctx_save] ++ SpecRender.outline_style_calls toCss style
        ++ [Canvas.ctx_beginPath]
        ++ List.concat (map SpecRender.subpath_calls (Drawing.toCoords shape T'))
        ++ [Canvas.ctx_stroke; Canvas.ctx_restore]) /\
    (forall shape,
        Drawing.toCoords shape T' =
        map (fun sub =>
               Mat.concat
                 (Mat.concat (map (fun p => p ++ [n1]) sub) T') Drawing.VT)
            (Drawing.nonEmptyOnly (Drawing.renderShape shape))) /\
    (forall (child : Drawing.Drawing Color) ctx w,
        Drawing.go toCss T (Drawing.Rotate ax ay az child) ctx w =
        Drawing.go toCss T' child ctx w) /\
    (forall ds : list (Drawing.Drawing Color),
        Canvas.commands
          (Drawing.go toCss T (Drawing.Rotate ax ay az (Drawing.Many ds))) =
        List.concat
          (map (fun d => Canvas.commands (Drawing.go toCss T' d)) ds)) /\
    (forall A B : @Mat.Mat num, Mat.mul B A = Mat.concat A B).
Proof.
  intros num N M Color toCss ax ay az T T'.
  assert (R : forall child : Drawing.Drawing Color,
             Drawing.go toCss T (Drawing.Rotate ax ay az child) =
             Drawing.go toCss T' child) by reflexivity.
  split; [| split; [| split; [| split; [| split]]]].
  - intros shape style. rewrite R. unfold Canvas.commands.
    now rewrite go_Fill_run.
  - intros shape style. rewrite R. unfold Canvas.commands.
    now rewrite go_Outline_run.
  - intros shape. unfold Drawing.toCoords, Mat.mul, FpTs.snoc.
    rewrite !map_map. reflexivity.
  - intros child ctx w. now rewrite R.
  - intros ds. rewrite R. apply commands_Many.
  - reflexivity.
Qed.

(** X10.  Rendering a drawing returns the context it was given and only
    appends to the calls the surface has already received; the calls it
    appends do not depend on what was drawn before. *)
Theorem render_only_appends :
  forall (num : Type) (N : JSNumber num) (M : JSMath num) (Color : Type)
         (toCss : Color -> String.string) (d : @Drawing.Drawing num Color)
         (t : @Mat.Mat num) ctx (w : @Canvas.World num),
    Drawing.go toCss t d ctx w =
    (ctx, w ++ Canvas.commands (Drawing.go toCss t d)).
Proof. intros. apply go_run. Qed.

(** X11.  [Many(children)] issues the calls of each child, in order, each
    rendered with the same accumulated transform. *)
Theorem render_Many_in_order :
  forall (num : Type) (N : JSNumber num) (M : JSMath num) (Color : Type)
         (toCss : Color -> String.string) (t : @Mat.Mat num)
         (ds : list (@Drawing.Drawing num Color)),
    Canvas.commands (Drawing.go toCss t (Drawing.Many ds)) =
    List.concat (map (fun d => Canvas.commands (Drawing.go toCss t d)) ds).
Proof. intros. apply commands_Many. Qed.

(** X12.  Rendering turns the Drawing monoid into concatenation of call
    sequences: [concat(x, y)] issues the calls of [x] followed by those of
    [y], and the empty drawing [Many([])] issues none. *)
Theorem render_monoid_homomorphism :
  forall (num : Type) (N : JSNumber num) (M : JSMath num) (Color : Type)
         (toCss : Color -> String.string) (t : @Mat.Mat num)
         (x y : @Drawing.Drawing num Color),
    Canvas.commands (Drawing.go toCss t (Drawing.monoidDrawing_concat x y)) =
      Canvas.commands (Drawing.go toCss t x)
      ++ Canvas.commands (Drawing.go toCss t y) /\
    Canvas.commands (Drawing.go toCss t (Drawing.monoidDrawing_empty Color)) = [].
Proof.
  intros num N M Color toCss t x y. split; [| reflexivity].
  rewrite monoidDrawing_concat_children, commands_Many.
  rewrite map_app, concat_app. now rewrite !commands_children.
Qed.

(** X13.  A [Fill] leaf issues save, the fill style when a colour is
    present, beginPath, for each subpath of [toCoords] a moveTo to its
    first point and a lineTo to each later one, then fill and restore.  An
    [Outline] leaf does the same with the stroke style, then the line
    width when present, and stroke in place of fill. *)
Theorem render_leaf_calls :
  forall (num : Type) (N : JSNumber num) (M : JSMath num) (Color : Type)
         (toCss : Color -> String.string) (t : @Mat.Mat num)
         (shape : @Shape.Shape num),
    (forall style,
        Canvas.commands (Drawing.go toCss t (Drawing.Fill shape style)) =
        [Canvas.ctx_save] ++ SpecRender.fill_style_calls toCss style
        ++ [Canvas.ctx_beginPath]
        ++ List.concat (map SpecRender.subpath_calls (Drawing.toCoords shape t))
        ++ [Canvas.ctx_fill None; Canvas.ctx_restore]) /\
    (forall style,
        Canvas.commands (Drawing.go toCss t (Drawing.Outline shape style)) =
        [Canvas.ctx_save] ++ SpecRender.outline_style_calls toCss style
        ++ [Canvas.ctx_beginPath]
        ++ List.concat (map SpecRender.subpath_calls (Drawing.toCoords shape t))
        ++ [Canvas.ctx_stroke; Canvas.ctx_restore]).
Proof.
  intros. split; intros style; unfold Canvas.commands.
  - now rewrite go_Fill_run.
  - now rewrite go_Outline_run.
Qed.

(** X14.  Rendering any drawing issues exactly one save, one beginPath and
    one restore per [Fill] or [Outline] node of the tree: saves and
    restores are balanced. *)
Theorem render_save_restore_balanced :
  forall (num : Type) (N : JSNumber num) (M : JSMath num) (Color : Type)
         (toCss : Color -> String.string) (d : @Drawing.Drawing num Color)
         (t : @Mat.Mat num),
    SpecRender.count SpecRender.is_save
      (Canvas.commands (Drawing.go toCss t d)) = SpecRender.leaves d /\
    SpecRender.count SpecRender.is_restore
      (Canvas.commands (Drawing.go toCss t d)) = SpecRender.leaves d /\
    SpecRender.count SpecRender.is_beginPath
      (Canvas.commands (Drawing.go toCss t d)) = SpecRender.leaves d.
Proof.
  intros. repeat split; apply count_once_per_leaf; reflexivity.
Qed.

(** ** Mat: transpose and the shape of products *)

Section MatMore.
Context {num : Type} {N : JSNumber num}.

Local Abbreviation Vec := (@Vec.Vec num).
Local Abbreviation Mat := (@Mat.Mat num).

Lemma nth_row (A : Mat) (i j : nat) :
  i < length A -> nth i (Mat.row j A) undef = nth j (nth i A []) undef.
Proof.
  intros H. unfold Mat.row.
  rewrite (nth_indep _ undef (Vec.at_ j [])) by now rewrite length_map.
  now rewrite (map_nth (Vec.at_ j) A [] i).
Qed.

Lemma transpose_is_matrix (m n : nat) (A : Mat) :
  SpecAlgebra.is_matrix m n A -> 0 < m ->
  SpecAlgebra.is_matrix n m (Mat.transpose A).
Proof.
  intros HA Km. pose proof (is_matrix_first_row HA Km) as Hd.
  destruct HA as [L R]. split.
  - now rewrite length_transpose.
  - apply Forall_forall. intros c Hc.
    rewrite (In_transpose_length A c Hc). exact L.
Qed.

Lemma transpose_transpose (m n : nat) (A : Mat) :
  SpecAlgebra.is_matrix m n A -> 0 < m -> 0 < n ->
  Mat.transpose (Mat.transpose A) = A.
Proof.
  intros HA Km Kn.
  pose proof (transpose_is_matrix HA Km) as HT.
  pose proof (is_matrix_first_row HT Kn) as HdT.
  pose proof (is_matrix_first_row HA Km) as HdA.
  destruct HA as [L R].
  rewrite (transpose_columns (Mat.transpose A)), HdT.
  unfold SpecAlgebra.columns at 1.
  transitivity (map (fun i => nth i A []) (seq 0 m));
    [| rewrite <- L; apply map_nth_seq].
  apply map_ext_in. intros i Hi. apply in_seq in Hi. destruct Hi as [_ Hi].
  simpl in Hi.
  rewrite transpose_columns, HdA. unfold SpecAlgebra.columns, Mat.row at 1.
  rewrite map_map.
  assert (Li : length (nth i A []) = n).
  { rewrite Forall_forall in R. apply R. apply nth_In. lia. }
  transitivity (map (fun j => nth j (nth i A []) undef) (seq 0 n));
    [| rewrite <- Li; apply map_nth_seq].
  apply map_ext. intros j. unfold Vec.at_. apply nth_row. lia.
Qed.

Lemma concat_is_matrix (m n p : nat) (X Y : Mat) :
  SpecAlgebra.is_matrix m n X -> SpecAlgebra.is_matrix n p Y -> 0 < n ->
  SpecAlgebra.is_matrix m p (Mat.concat X Y).
Proof.
  intros [LX _] HY Kn. pose proof (is_matrix_first_row HY Kn) as Hd.
  destruct (length_concat_rows X Y) as [L R]. split.
  - now rewrite L.
  - now rewrite Hd in R.
Qed.
End MatMore.

(** ** The matrix product *)

(** C8, as amended.  On any numbers, [concat(X, Y)] holds at row [i],
    column [j] the dot product of row [i] of [X] and column [j] of [Y],
    computed through the transpose of [Y]; for conformable matrices that is
    the sum over [k] of X[i][k] * Y[k][j]; and on a conformable triple the
    two bracketings of the product are matrices of the same shape.  On
    JavaScript numbers the 4x4 identity matrix is a two-sided unit of
    [concat] on the 4x4 matrices whose entries are finite doubles:
    [concat(identity, A)] and [concat(A, identity)] have the shape of [A]
    and every entry [===] the entry of [A] (a zero may change its sign). *)
Theorem concat_matrix_product :
  (forall (num : Type) (N : JSNumber num),
      (forall X Y : @Mat.Mat num,
          Mat.concat X Y =
          map (fun a => map (fun c => Vec.dot c a) (Mat.transpose Y)) X) /\
      (forall (X Y : @Mat.Mat num) (i j : nat),
          i < length X -> j < length (hd [] Y) ->
          SpecAlgebra.entry (Mat.concat X Y) i j =
          Vec.dot (Mat.row j Y) (nth i X [])) /\
      (forall (m n p : nat) (X Y : @Mat.Mat num) (i j : nat),
          0 < n ->
          SpecAlgebra.is_matrix m n X -> SpecAlgebra.is_matrix n p Y ->
          i < m -> j < p ->
          SpecAlgebra.entry (Mat.concat X Y) i j =
          SpecAlgebra.sum_of_products (nth i X []) (Mat.row j Y)) /\
      (forall (m n p q : nat) (A B C : @Mat.Mat num),
          0 < n -> 0 < p ->
          SpecAlgebra.is_matrix m n A -> SpecAlgebra.is_matrix n p B ->
          SpecAlgebra.is_matrix p q C ->
          SpecAlgebra.is_matrix m q (Mat.concat (Mat.concat A B) C) /\
          SpecAlgebra.is_matrix m q (Mat.concat A (Mat.concat B C)))) /\
  (forall A : @Mat.Mat jsnum,
      SpecAlgebra.is_matrix 4 4 A -> SpecFinite.finite_entries A ->
      SpecAlgebra.mat_strict_eq (Mat.concat Mat.identity A) A = true /\
      SpecAlgebra.mat_strict_eq (Mat.concat A Mat.identity) A = true).
Proof.
  split.
  - intros num N. split; [| split; [| split]].
    + apply concat_rows.
    + intros. now apply concat_entry.
    + intros m n p X Y i j Kn HX HY Hi Hj.
      pose proof (is_matrix_first_row HY Kn) as HdY.
      destruct HX as [LX RX]. destruct HY as [LY RY].
      rewrite concat_entry by lia.
      apply dot_nonempty.
      * rewrite Forall_forall in RX.
        apply (@positive_length_nonempty _ _ n); [| exact Kn].
        apply RX. apply nth_In. lia.
      * apply (@positive_length_nonempty _ _ n); [| exact Kn].
        unfold Mat.row. now rewrite length_map.
    + intros m n p q A B C Kn Kp HA HB HC. split.
      * apply (@concat_is_matrix num N m p q); [| exact HC | exact Kp].
        now apply (@concat_is_matrix num N m n p).
      * apply (@concat_is_matrix num N m n q); [exact HA | | exact Kn].
        now apply (@concat_is_matrix num N n p q).
  - intros A HA FA. split.
    + now apply concat_identity_l_doubles.
    + now apply (@concat_identity_r_doubles 4).
Qed.

Lemma concat_matrix_product_witness :
  SpecAlgebra.mat_strict_eq (Mat.concat Mat.identity scale_01) scale_01 = true /\
  SpecAlgebra.mat_strict_eq (Mat.concat scale_01 Mat.identity) scale_01 = true.
Proof.
  apply (proj2 concat_matrix_product scale_01).
  - split; repeat constructor.
  - repeat constructor.
Defined.

(** The unit law holds under [===] and not as equality of values: the
    product with the identity turns a negative zero into a positive one. *)
Example concat_identity_negative_zero :
  Mat.concat Mat.identity (Mat.translate [Num (-0); Num 0; Num 0]) <>
  Mat.translate [Num (-0); Num 0; Num 0] /\
  SpecAlgebra.mat_strict_eq
    (Mat.concat Mat.identity (Mat.translate [Num (-0); Num 0; Num 0]))
    (Mat.translate [Num (-0); Num 0; Num 0]) = true.
Proof.
  split; [| vm_compute; reflexivity].
  intros H.
  apply (f_equal (fun m => FloatOps.Prim2SF
                             (ToNumber (SpecAlgebra.entry m 3 0)))) in H.
  vm_compute in H. discriminate.
Qed.

(** C8, as stated, fails on JavaScript numbers.  The scalings by 0.1, 0.2
    and 0.3 are 4x4 matrices whose two bracketings differ (0.006000000000000001
    against 0.006 in the corner), and the identity matrix is not a left
    unit for the translation to infinity along x (0 * Infinity is NaN). *)
Lemma concat_float_counterexample :
  (SpecAlgebra.is_matrix 4 4 scale_01 /\ SpecAlgebra.is_matrix 4 4 scale_02 /\
   SpecAlgebra.is_matrix 4 4 scale_03 /\
   Mat.concat (Mat.concat scale_01 scale_02) scale_03 <>
   Mat.concat scale_01 (Mat.concat scale_02 scale_03) /\
   SpecAlgebra.mat_strict_eq
     (Mat.concat (Mat.concat scale_01 scale_02) scale_03)
     (Mat.concat scale_01 (Mat.concat scale_02 scale_03)) = false) /\
  (SpecAlgebra.is_matrix 4 4 translate_inf /\
   Mat.concat Mat.identity translate_inf <> translate_inf /\
   SpecAlgebra.mat_strict_eq (Mat.concat Mat.identity translate_inf)
                             translate_inf = false /\
   SpecAlgebra.mat_strict_eq translate_inf translate_inf = true).
Proof.
  assert (D1 : SpecAlgebra.mat_strict_eq
                 (Mat.concat (Mat.concat scale_01 scale_02) scale_03)
                 (Mat.concat scale_01 (Mat.concat scale_02 scale_03)) = false)
    by (vm_compute; reflexivity).
  assert (D2 : SpecAlgebra.mat_strict_eq
                 (Mat.concat Mat.identity translate_inf) translate_inf = false)
    by (vm_compute; reflexivity).
  assert (R2 : SpecAlgebra.mat_strict_eq translate_inf translate_inf = true)
    by (vm_compute; reflexivity).
  split.
  - repeat split; try (repeat constructor); try exact D1.
    intros H. rewrite H in D1.
    assert (R1 : SpecAlgebra.mat_strict_eq
                   (Mat.concat scale_01 (Mat.concat scale_02 scale_03))
                   (Mat.concat scale_01 (Mat.concat scale_02 scale_03)) = true)
      by (vm_compute; reflexivity).
    rewrite R1 in D1. discriminate.
  - repeat split; try (repeat constructor); try exact D2; try exact R2.
    intros H. rewrite H in D2. rewrite R2 in D2. discriminate.
Qed.

(** X15.  Transposing twice gives the matrix back, for every rectangular
    matrix with at least one row and one column. *)
Theorem transpose_involutive :
  forall (num : Type) (N : JSNumber num) (m n : nat) (A : @Mat.Mat num),
    SpecAlgebra.is_matrix m n A -> 0 < m -> 0 < n ->
    Mat.transpose (Mat.transpose A) = A.
Proof. intros. now apply (@transpose_transpose num N m n). Qed.

Lemma transpose_involutive_witness :
  Mat.transpose (Mat.transpose [[Num 1; Num 2]; [Num 3; Num 4]; [Num 5; Num 6]]) =
  [[Num 1; Num 2]; [Num 3; Num 4]; [Num 5; Num 6]].
Proof.
  apply (@transpose_involutive jsnum _ 3 2); try lia.
  split; repeat constructor.
Defined.

(** X16.  Shapes: the transpose of an m x n matrix (m at least 1) is
    n x m, and the product of an m x n matrix by an n x p matrix (n at
    least 1) is m x p. *)
Theorem transpose_concat_shapes :
  forall (num : Type) (N : JSNumber num) (m n p : nat) (X Y : @Mat.Mat num),
    (SpecAlgebra.is_matrix m n X -> 0 < m ->
     SpecAlgebra.is_matrix n m (Mat.transpose X)) /\
    (SpecAlgebra.is_matrix m n X -> SpecAlgebra.is_matrix n p Y -> 0 < n ->
     SpecAlgebra.is_matrix m p (Mat.concat X Y)).
Proof.
  intros. split; intros.
  - now apply transpose_is_matrix.
  - now apply (@concat_is_matrix num N m n p).
Qed.

Lemma transpose_concat_shapes_witness :
  SpecAlgebra.is_matrix 4 4 (Mat.concat scale_01 scale_02).
Proof.
  apply (proj2 (@transpose_concat_shapes jsnum _ 4 4 4 scale_01 scale_02));
    try lia; split; repeat constructor.
Defined.

(** ** Mat and Vec on JavaScript numbers *)

Section MatDoublesMore.
Import FloatFacts.

Local Abbreviation Vec := (@Vec.Vec jsnum).
Local Abbreviation Mat := (@Mat.Mat jsnum).

Lemma nmul_comm (x y : jsnum) : nmul x y = nmul y x.
Proof. cbn. now rewrite fl_mul_comm. Qed.

Lemma zip_rest_mul_comm (a b : Vec) :
  FpTs.zip_rest nmul a b = FpTs.zip_rest nmul b a.
Proof.
  revert b. induction a as [|x a IH]; intros [|y b]; simpl; try reflexivity.
  now rewrite IH, fl_mul_comm.
Qed.

Lemma dot_comm_doubles (a b : Vec) : Vec.dot b a = Vec.dot a b.
Proof.
  unfold Vec.dot, FpTs.zipWith. rewrite zip_rest_mul_comm.
  now rewrite (nmul_comm (hd undef a) (hd undef b)).
Qed.

Lemma row_times_VT (r : Vec) :
  length r = 4 -> Forall (fun x => isFinite x = true) r ->
  Spec.componentwise_eq
    (map (fun c => Vec.dot c r) (Mat.transpose Drawing.VT))
    [Vec.at_ 0 r; Vec.at_ 1 r; n0; Vec.at_ 3 r] = true.
Proof.
  intros L F.
  destruct (finite_row_4 L F) as (a0 & a1 & a2 & a3 & -> & H0 & H1 & H2 & H3).
  unfold Drawing.VT. fl_entries.
Qed.

Lemma finite_vec_3 (v : Vec) :
  length v = 3 -> Forall (fun x => isFinite x = true) v ->
  exists a0 a1 a2,
    v = [Num a0; Num a1; Num a2] /\
    is_finite a0 = true /\ is_finite a1 = true /\ is_finite a2 = true.
Proof.
  intros L F.
  destruct v as [|x0 [|x1 [|x2 [|? ?]]]]; try discriminate.
  inversion_clear F as [|? ? F0 F']. inversion_clear F' as [|? ? F1 F''].
  inversion_clear F'' as [|? ? F2 _].
  destruct (isFinite_Num _ F0) as (a0 & -> & H0).
  destruct (isFinite_Num _ F1) as (a1 & -> & H1).
  destruct (isFinite_Num _ F2) as (a2 & -> & H2).
  now exists a0, a1, a2.
Qed.

Lemma translate_translate_doubles (u v : Vec) :
  length u = 3 -> length v = 3 ->
  Forall (fun x => isFinite x = true) u ->
  Forall (fun x => isFinite x = true) v ->
  SpecAlgebra.mat_strict_eq
    (Mat.concat (Mat.translate u) (Mat.translate v))
    (Mat.translate [nadd (Vec.at_ 0 u) (Vec.at_ 0 v);
                    nadd (Vec.at_ 1 u) (Vec.at_ 1 v);
                    nadd (Vec.at_ 2 u) (Vec.at_ 2 v)]) = true.
Proof.
  intros Lu Lv Fu Fv.
  destruct (finite_vec_3 Lu Fu) as (u0 & u1 & u2 & -> & ? & ? & ?).
  destruct (finite_vec_3 Lv Fv) as (v0 & v1 & v2 & -> & ? & ? & ?).
  unfold Mat.translate. fl_entries.
Qed.

Lemma scale_scale_doubles (u v : Vec) :
  length u = 3 -> length v = 3 ->
  Forall (fun x => isFinite x = true) u ->
  Forall (fun x => isFinite x = true) v ->
  SpecAlgebra.mat_strict_eq
    (Mat.concat (Mat.scale u) (Mat.scale v))
    (Mat.scale [nmul (Vec.at_ 0 u) (Vec.at_ 0 v);
                nmul (Vec.at_ 1 u) (Vec.at_ 1 v);
                nmul (Vec.at_ 2 u) (Vec.at_ 2 v)]) = true.
Proof.
  intros Lu Lv Fu Fv.
  destruct (finite_vec_3 Lu Fu) as (u0 & u1 & u2 & -> & ? & ? & ?).
  destruct (finite_vec_3 Lv Fv) as (v0 & v1 & v2 & -> & ? & ? & ?).
  unfold Mat.scale. fl_entries.
Qed.

Lemma componentwise_eq_4 (r : Vec) (a0 a1 a2 a3 : float) :
  Spec.componentwise_eq r [Num a0; Num a1; Num a2; Num a3] = true ->
  exists r0 r1 r2 r3,
    r = [Num r0; Num r1; Num r2; Num r3] /\
    (r0 =? a0)%float = true /\ (r1 =? a1)%float = true /\
    (r2 =? a2)%float = true /\ (r3 =? a3)%float = true.
Proof.
  destruct r as [|[r0|] [|[r1|] [|[r2|] [|[r3|] [|? ?]]]]]; try discriminate;
    cbn; rewrite ?andb_false_r; try discriminate.
  rewrite andb_true_r, !andb_true_iff. intros (E0 & E1 & E2 & E3).
  now exists r0, r1, r2, r3.
Qed.

(** A homogeneous point that is [===] to (x, y, z, w), projected. *)
Lemma row_times_VT_eq (r : Vec) (a0 a1 a2 a3 : float) :
  is_finite a0 = true -> is_finite a1 = true ->
  is_finite a2 = true -> is_finite a3 = true ->
  Spec.componentwise_eq r [Num a0; Num a1; Num a2; Num a3] = true ->
  Spec.componentwise_eq
    (map (fun c => Vec.dot c r) (Mat.transpose Drawing.VT))
    [Num a0; Num a1; n0; Num a3] = true.
Proof.
  intros H0 H1 H2 H3 E.
  destruct (@componentwise_eq_4 r a0 a1 a2 a3 E) as (r0 & r1 & r2 & r3 & -> & E0 & E1 & E2 & E3).
  pose proof (@fl_eqb_finite r0 a0 E0 H0). pose proof (@fl_eqb_finite r1 a1 E1 H1).
  pose proof (@fl_eqb_finite r2 a2 E2 H2). pose proof (@fl_eqb_finite r3 a3 E3 H3).
  unfold Drawing.VT. cbn. rewrite ?fl_mul_one by fl_fin.
  repeat (apply andb_true_iff; split); try reflexivity.
  - apply fl_eqb_trans with r0; [fl_sum | assumption | assumption].
  - apply fl_eqb_trans with r1; [fl_sum | assumption | assumption].
  - fl_sum.
  - apply fl_eqb_trans with r3; [fl_sum | assumption | assumption].
Qed.

(** One finite 3-vector through [toCoords] at the identity transform. *)
Lemma point_to_coords_identity (p : Vec) :
  length p = 3 -> Path3D.isPointFinite p = true ->
  Spec.componentwise_eq
    (map (fun c => Vec.dot c (map (fun c' => Vec.dot c' (FpTs.snoc p n1))
                                  (Mat.transpose Mat.identity)))
         (Mat.transpose Drawing.VT))
    [Vec.at_ 0 p; Vec.at_ 1 p; n0; n1] = true.
Proof.
  intros L F. unfold Path3D.isPointFinite in F.
  apply andb_true_iff in F. destruct F as [F F2].
  apply andb_true_iff in F. destruct F as [F0 F1].
  destruct p as [|x0 [|x1 [|x2 [|? ?]]]]; try discriminate.
  unfold Vec.at_ in *. cbn [nth] in *.
  destruct (isFinite_Num _ F0) as (a0 & -> & H0).
  destruct (isFinite_Num _ F1) as (a1 & -> & H1).
  destruct (isFinite_Num _ F2) as (a2 & -> & H2).
  apply row_times_VT_eq with (a2 := a2); try assumption; try reflexivity.
  apply (@row_times_identity [Num a0; Num a1; Num a2; Num 1%float]);
    [reflexivity | repeat constructor; assumption].
Qed.
(** One finite 3-vector through [toCoords] under a translation and under
    a scaling, when the moved coordinates are finite too. *)
Lemma point_to_coords_translate (p d : Vec) :
  length p = 3 -> Path3D.isPointFinite p = true ->
  length d = 3 -> Forall (fun x => isFinite x = true) d ->
  isFinite (nadd (Vec.at_ 0 p) (Vec.at_ 0 d)) = true ->
  isFinite (nadd (Vec.at_ 1 p) (Vec.at_ 1 d)) = true ->
  isFinite (nadd (Vec.at_ 2 p) (Vec.at_ 2 d)) = true ->
  Spec.componentwise_eq
    (map (fun c => Vec.dot c (map (fun c' => Vec.dot c' (FpTs.snoc p n1))
                                  (Mat.transpose (Mat.translate d))))
         (Mat.transpose Drawing.VT))
    [nadd (Vec.at_ 0 p) (Vec.at_ 0 d); nadd (Vec.at_ 1 p) (Vec.at_ 1 d);
     n0; n1] = true.
Proof.
  intros L F Ld Fd.
  destruct (finite_vec_3 Ld Fd) as (d0 & d1 & d2 & -> & D0 & D1 & D2).
  unfold Path3D.isPointFinite in F.
  apply andb_true_iff in F. destruct F as [F F2].
  apply andb_true_iff in F. destruct F as [F0 F1].
  destruct p as [|x0 [|x1 [|x2 [|? ?]]]]; try discriminate.
  unfold Vec.at_ in *. cbn [nth] in *.
  destruct (isFinite_Num _ F0) as (a0 & -> & H0).
  destruct (isFinite_Num _ F1) as (a1 & -> & H1).
  destruct (isFinite_Num _ F2) as (a2 & -> & H2).
  cbn [nadd jsnum_number ToNumber isFinite]. intros S0 S1 S2.
  apply row_times_VT_eq with (a2 := (a2 + d2)%float);
    try assumption; try reflexivity.
  unfold Mat.translate. fl_entries.
Qed.

Lemma point_to_coords_scale (p d : Vec) :
  length p = 3 -> Path3D.isPointFinite p = true ->
  length d = 3 -> Forall (fun x => isFinite x = true) d ->
  isFinite (nmul (Vec.at_ 0 p) (Vec.at_ 0 d)) = true ->
  isFinite (nmul (Vec.at_ 1 p) (Vec.at_ 1 d)) = true ->
  isFinite (nmul (Vec.at_ 2 p) (Vec.at_ 2 d)) = true ->
  Spec.componentwise_eq
    (map (fun c => Vec.dot c (map (fun c' => Vec.dot c' (FpTs.snoc p n1))
                                  (Mat.transpose (Mat.scale d))))
         (Mat.transpose Drawing.VT))
    [nmul (Vec.at_ 0 p) (Vec.at_ 0 d); nmul (Vec.at_ 1 p) (Vec.at_ 1 d);
     n0; n1] = true.
Proof.
  intros L F Ld Fd.
  destruct (finite_vec_3 Ld Fd) as (d0 & d1 & d2 & -> & D0 & D1 & D2).
  unfold Path3D.isPointFinite in F.
  apply andb_true_iff in F. destruct F as [F F2].
  apply andb_true_iff in F. destruct F as [F0 F1].
  destruct p as [|x0 [|x1 [|x2 [|? ?]]]]; try discriminate.
  unfold Vec.at_ in *. cbn [nth] in *.
  destruct (isFinite_Num _ F0) as (a0 & -> & H0).
  destruct (isFinite_Num _ F1) as (a1 & -> & H1).
  destruct (isFinite_Num _ F2) as (a2 & -> & H2).
  cbn [nmul jsnum_number ToNumber isFinite]. intros S0 S1 S2.
  apply row_times_VT_eq with (a2 := (a2 * d2)%float);
    try assumption; try reflexivity.
  unfold Mat.scale. fl_entries.
Qed.

(** [toCoords] works point by point: what holds of every rendered point
    taken through the transform and the projection holds of its result. *)
Lemma toCoords_pointwise (shape : @Shape.Shape jsnum) (t : Mat)
      (G : Vec -> Vec) :
  Forall
    (Forall (fun p =>
       Spec.componentwise_eq
         (map (fun c => Vec.dot c (map (fun c' => Vec.dot c' (FpTs.snoc p n1))
                                       (Mat.transpose t)))
              (Mat.transpose Drawing.VT))
         (G p) = true))
    (Drawing.renderShape shape) ->
  Forall2
    (fun out sub => SpecAlgebra.mat_strict_eq out (map G sub) = true)
    (Drawing.toCoords shape t) (Drawing.renderShape shape).
Proof.
  intros H.
  destruct (renderShape_invariants shape) as [NE _].
  unfold Drawing.toCoords. rewrite (nonEmptyOnly_id NE), !map_map.
  clear NE. induction H as [|sub rest Hs _ IH]; [constructor |].
  cbn [map]. constructor; [| exact IH].
  unfold Mat.mul. rewrite !concat_rows, !map_map.
  now apply mat_strict_eq_map.
Qed.
End MatDoublesMore.

(** X17.  On JavaScript numbers the dot product is symmetric: [dot(b)(a)]
    and [dot(a)(b)] are the same number, whatever the two vectors and
    their lengths, because the multiplication of doubles commutes. *)
Theorem dot_symmetric :
  forall a b : @Vec.Vec jsnum, Vec.dot b a = Vec.dot a b.
Proof. intros a b. apply dot_comm_doubles. Qed.

(** X18.  On JavaScript numbers the transpose of a product is the product
    of the transposes in reverse order, for a rectangular left factor with
    at least one row and one column. *)
Theorem transpose_concat_doubles :
  forall (m n : nat) (A B : @Mat.Mat jsnum),
    SpecAlgebra.is_matrix m n A -> 0 < m -> 0 < n ->
    Mat.transpose (Mat.concat A B) =
    Mat.concat (Mat.transpose B) (Mat.transpose A).
Proof.
  intros m n A B HA Km Kn.
  assert (NA : A <> []).
  { destruct HA as [L _]. now apply (positive_length_nonempty L). }
  rewrite transpose_concat by exact NA.
  rewrite (concat_rows (Mat.transpose B) (Mat.transpose A)).
  rewrite (transpose_transpose HA Km Kn).
  apply map_ext. intros c. apply map_ext. intros a.
  apply dot_comm_doubles.
Qed.

Lemma transpose_concat_doubles_witness :
  Mat.transpose (Mat.concat scale_01 translate_inf) =
  Mat.concat (Mat.transpose translate_inf) (Mat.transpose scale_01).
Proof.
  apply (@transpose_concat_doubles 4 4); try lia.
  split; repeat constructor.
Defined.

(** X19.  On finite doubles the product of the translation matrices of
    [u] and [v] is, entry by entry under [===], the translation matrix of
    the sums u[i] + v[i], and the product of their scaling matrices the
    scaling matrix of the products u[i] * v[i]; and translating by (0,0,0)
    or scaling by (1,1,1) leaves a 4x4 transform of finite entries as it
    is, entry by entry under [===]. *)
Theorem nested_transforms_combine_doubles :
  (forall u v : @Vec.Vec jsnum,
      length u = 3 -> length v = 3 ->
      Forall (fun x => isFinite x = true) u ->
      Forall (fun x => isFinite x = true) v ->
      SpecAlgebra.mat_strict_eq
        (Mat.concat (Mat.translate u) (Mat.translate v))
        (Mat.translate [nadd (Vec.at_ 0 u) (Vec.at_ 0 v);
                        nadd (Vec.at_ 1 u) (Vec.at_ 1 v);
                        nadd (Vec.at_ 2 u) (Vec.at_ 2 v)]) = true /\
      SpecAlgebra.mat_strict_eq
        (Mat.concat (Mat.scale u) (Mat.scale v))
        (Mat.scale [nmul (Vec.at_ 0 u) (Vec.at_ 0 v);
                    nmul (Vec.at_ 1 u) (Vec.at_ 1 v);
                    nmul (Vec.at_ 2 u) (Vec.at_ 2 v)]) = true) /\
  (forall t : @Mat.Mat jsnum,
      SpecAlgebra.is_matrix 4 4 t -> SpecFinite.finite_entries t ->
      SpecAlgebra.mat_strict_eq (Mat.mul (Mat.translate [n0; n0; n0]) t) t = true /\
      SpecAlgebra.mat_strict_eq (Mat.mul (Mat.scale [n1; n1; n1]) t) t = true).
Proof.
  split.
  - intros u v Lu Lv Fu Fv. split.
    + now apply translate_translate_doubles.
    + now apply scale_scale_doubles.
  - intros t Ht Ft. unfold Mat.mul.
    change (Mat.translate [n0; n0; n0]) with (@Mat.identity jsnum _).
    change (Mat.scale [n1; n1; n1]) with (@Mat.identity jsnum _).
    split; now apply (@concat_identity_r_doubles 4).
Qed.

Lemma nested_transforms_combine_doubles_witness :
  SpecAlgebra.mat_strict_eq
    (Mat.concat (Mat.translate [Num 0.1; Num 2; Num (-0)])
                (Mat.translate [Num 0.2; Num (-2); Num 0]))
    (Mat.translate [Num (0.1 + 0.2); Num (2 + -2); Num (-0 + 0)]) = true.
Proof.
  apply (proj1 (proj1 nested_transforms_combine_doubles
                  [Num 0.1; Num 2; Num (-0)] [Num 0.2; Num (-2); Num 0]
                  eq_refl eq_refl
                  ltac:(repeat constructor) ltac:(repeat constructor)))%float.
Defined.

(** X20.  On finite doubles, multiplying a list of homogeneous points by
    the projection matrix [VT] keeps x, y and w of every point and sets its
    z to 0, entry by entry under [===]. *)
Theorem project_by_VT_doubles :
  forall sub : @Mat.Mat jsnum,
    Forall (fun pt => length pt = 4) sub ->
    SpecFinite.finite_entries sub ->
    SpecAlgebra.mat_strict_eq
      (Mat.mul Drawing.VT sub)
      (map (fun pt => [Vec.at_ 0 pt; Vec.at_ 1 pt; n0; Vec.at_ 3 pt]) sub) = true.
Proof.
  intros sub L F. unfold Mat.mul. rewrite concat_rows.
  apply mat_strict_eq_map.
  unfold SpecFinite.finite_entries in F.
  rewrite Forall_forall in *. intros r Hr.
  apply row_times_VT; [now apply L | now apply F].
Qed.

Lemma project_by_VT_doubles_witness :
  SpecAlgebra.mat_strict_eq
    (Mat.mul Drawing.VT [[Num 0.1; Num 2; Num 3; Num 1];
                         [Num 4; Num (-5.5); Num 6; Num 1]])
    (map (fun pt => [Vec.at_ 0 pt; Vec.at_ 1 pt; n0; Vec.at_ 3 pt])
         [[Num 0.1; Num 2; Num 3; Num 1];
          [Num 4; Num (-5.5); Num 6; Num 1]]) = true.
Proof.
  apply project_by_VT_doubles; repeat constructor.
Defined.

(** X21.  [concatAll] folds [concat] over its list from the left, starting
    from the identity: the empty list gives the identity matrix, and a
    list extended by one matrix at its end gives the product of the list's
    product and that matrix.  On a single 4x4 matrix of finite doubles the
    result is that matrix, entry by entry under [===]. *)
Theorem concatAll_folds_left :
  (forall (num : Type) (N : JSNumber num),
      Mat.concatAll (@nil (@Mat.Mat num)) = Mat.identity /\
      (forall (xs : list (@Mat.Mat num)) (y : @Mat.Mat num),
          Mat.concatAll (xs ++ [y]) = Mat.concat (Mat.concatAll xs) y)) /\
  (forall A : @Mat.Mat jsnum,
      SpecAlgebra.is_matrix 4 4 A -> SpecFinite.finite_entries A ->
      SpecAlgebra.mat_strict_eq (Mat.concatAll [A]) A = true).
Proof.
  split.
  - intros num N. split; [reflexivity |].
    intros xs y. unfold Mat.concatAll. now rewrite fold_left_app.
  - intros A HA FA. unfold Mat.concatAll, Mat.monoidMat_empty.
    cbn [fold_left]. now apply concat_identity_l_doubles.
Qed.

Lemma concatAll_folds_left_witness :
  SpecAlgebra.mat_strict_eq (Mat.concatAll [scale_03]) scale_03 = true.
Proof.
  apply (proj2 concatAll_folds_left scale_03).
  - split; repeat constructor.
  - repeat constructor.
Defined.

(** ** Shape: the Path monoid and the two folds *)

(** X22.  [path(F)(fa)] is the [Path] with [closed = false] whose points
    are the elements of [fa] in order, for every Foldable container and
    every sequence, the empty one included. *)
Theorem path_collects_points :
  forall (num : Type) (N : JSNumber num) (F : Type -> Type) (FF : Foldable F)
         (fa : F (@Shape.Point num)),
    Shape.path fa = Shape.mkPath false (F_toList fa).
Proof. intros. apply path_points. Qed.

(** X23.  On a non-empty sequence [closed(F)(fa)] is the [Path] with
    [closed = true] whose points are the elements of [fa] in order, for
    every Foldable container. *)
Theorem closed_collects_points :
  forall (num : Type) (N : JSNumber num) (F : Type -> Type) (FF : Foldable F)
         (fa : F (@Shape.Point num)),
    F_toList fa <> [] ->
    Shape.closed fa = Shape.mkPath true (F_toList fa).
Proof. intros. now apply closed_points_nonempty. Qed.

Lemma closed_collects_points_witness :
  Shape.closed (F := list) unit_square = Shape.mkPath true unit_square.
Proof.
  assert (H : F_toList (F := list) unit_square <> [])
    by (unfold unit_square; cbn; discriminate).
  exact (@closed_collects_points jsnum _ list _ unit_square H).
Defined.

(** X24.  [monoidPath] is a monoid: its [concat] is associative and its
    [empty] is a left and right identity.  The combined path is closed
    when either operand is, and holds the points of the first followed by
    those of the second. *)
Theorem monoidPath_laws :
  forall (num : Type) (x y z : @Shape.Path num),
    Shape.monoidPath_concat (Shape.monoidPath_concat x y) z =
      Shape.monoidPath_concat x (Shape.monoidPath_concat y z) /\
    Shape.monoidPath_concat Shape.monoidPath_empty x = x /\
    Shape.monoidPath_concat x Shape.monoidPath_empty = x.
Proof.
  intros num [cx px] [cy py] [cz pz]. unfold Shape.monoidPath_concat. cbn.
  repeat split.
  - now rewrite orb_assoc, app_assoc.
  - now rewrite orb_false_r, app_nil_r.
Qed.

(** X25.  On arrays [path] and [closed] turn concatenation into the
    [monoidPath] combination: the path of [xs ++ ys] is the combination of
    the paths of [xs] and of [ys]. *)
Theorem path_closed_of_append :
  forall (num : Type) (N : JSNumber num) (xs ys : list (@Shape.Point num)),
    Shape.path (F := list) (xs ++ ys) =
      Shape.monoidPath_concat (Shape.path (F := list) xs)
                              (Shape.path (F := list) ys) /\
    Shape.closed (F := list) (xs ++ ys) =
      Shape.monoidPath_concat (Shape.closed (F := list) xs)
                              (Shape.closed (F := list) ys).
Proof.
  intros num N xs ys. split.
  - rewrite !path_points. reflexivity.
  - destruct xs as [|x xs].
    + destruct ys as [|y ys]; [reflexivity |].
      rewrite (@closed_points_nonempty num list _ ([] ++ y :: ys))
        by discriminate.
      rewrite (@closed_points_nonempty num list _ (y :: ys)) by discriminate.
      reflexivity.
    + rewrite (@closed_points_nonempty num list _ ((x :: xs) ++ ys))
        by discriminate.
      rewrite (@closed_points_nonempty num list _ (x :: xs)) by discriminate.
      destruct ys as [|y ys].
      * reflexivity.
      * rewrite (@closed_points_nonempty num list _ (y :: ys))
          by discriminate.
        reflexivity.
Qed.

(** ** Drawing: the style monoids *)

(** X26.  The fill and outline style monoids are associative with the
    all-absent style as left and right identity, and each field of a
    combination is the left operand's when that is present: combining
    [outlineColor(c)] and [lineWidth(w)], in either order, gives the style
    with colour [c] and width [w], and a colour on the left wins over one
    on the right. *)
Theorem style_monoid_laws :
  forall (num Color : Type)
         (x y z : @Drawing.OutlineStyle num Color)
         (f g h : Drawing.FillStyle Color) (c c' : Color) (w : num),
    Drawing.monoidOutlineStyle_concat (Drawing.monoidOutlineStyle_concat x y) z =
      Drawing.monoidOutlineStyle_concat x (Drawing.monoidOutlineStyle_concat y z) /\
    Drawing.monoidOutlineStyle_concat (Drawing.monoidOutlineStyle_empty Color) x = x /\
    Drawing.monoidOutlineStyle_concat x (Drawing.monoidOutlineStyle_empty Color) = x /\
    Drawing.monoidFillStyle_concat (Drawing.monoidFillStyle_concat f g) h =
      Drawing.monoidFillStyle_concat f (Drawing.monoidFillStyle_concat g h) /\
    Drawing.monoidFillStyle_concat (Drawing.monoidFillStyle_empty Color) f = f /\
    Drawing.monoidFillStyle_concat f (Drawing.monoidFillStyle_empty Color) = f /\
    Drawing.monoidOutlineStyle_concat (Drawing.outlineColor c) (Drawing.lineWidth Color w) =
      Drawing.mkOutlineStyle (Some c) (Some w) /\
    Drawing.monoidOutlineStyle_concat (Drawing.lineWidth Color w) (Drawing.outlineColor c) =
      Drawing.mkOutlineStyle (Some c) (Some w) /\
    Drawing.monoidFillStyle_concat (Drawing.fillStyle c) (Drawing.fillStyle c') =
      Drawing.fillStyle c.
Proof.
  intros num Color [[xc|] [xw|]] [[yc|] [yw|]] [[zc|] [zw|]]
         [[fc|]] [[gc|]] [[hc|]] c c' w;
    repeat split; reflexivity.
Qed.

(** ** Canvas: the bracketing combinators *)

(** X27.  Around an effect [f] that returns [a] and appends the calls [tr]
    to the surface, [withContext] issues save, [tr], restore; [fillPath]
    issues beginPath, [tr], fill; [strokePath] issues beginPath, [tr],
    stroke; and each returns [a]. *)
Theorem bracket_combinators :
  forall (num : Type) (A : Type) (f : @Canvas.Render num A) (a : A)
         (tr : list (@Canvas.Command num)),
    (forall ctx w, f ctx w = (a, w ++ tr)) ->
    forall ctx w,
      Canvas.withContext f ctx w =
        (a, w ++ [Canvas.ctx_save] ++ tr ++ [Canvas.ctx_restore]) /\
      Canvas.fillPath f ctx w =
        (a, w ++ [Canvas.ctx_beginPath] ++ tr ++ [Canvas.ctx_fill None]) /\
      Canvas.strokePath f ctx w =
        (a, w ++ [Canvas.ctx_beginPath] ++ tr ++ [Canvas.ctx_stroke]).
Proof.
  intros num A f a tr H ctx w.
  unfold Canvas.withContext, Canvas.fillPath, Canvas.strokePath,
    Canvas.RIO_chainFirst, Canvas.RIO_chain, Canvas.save, Canvas.restore,
    Canvas.beginPath, Canvas.fill, Canvas.stroke, Canvas.call.
  rewrite !H. repeat split; now rewrite <- !app_assoc.
Qed.

Lemma bracket_combinators_witness :
  Canvas.withContext (Canvas.moveTo (P3 1 2 3)) Canvas.ctx2d [] =
  (Canvas.ctx2d,
   [] ++ [Canvas.ctx_save] ++ [Canvas.ctx_moveTo (Num 1) (Num 2)]
      ++ [Canvas.ctx_restore]).
Proof.
  apply (proj1 (@bracket_combinators jsnum _ (Canvas.moveTo (P3 1 2 3))
                  Canvas.ctx2d [Canvas.ctx_moveTo (Num 1) (Num 2)]
                  ltac:(intros [] w; reflexivity) Canvas.ctx2d [])).
Defined.

(** ** toCoords on JavaScript numbers *)

(** X28.  [toCoords] on JavaScript numbers, for a shape whose rendered
    points are 3-vectors (being rendered, their coordinates are finite
    doubles); results are compared entry by entry under [===], subpath by
    subpath and point by point.  From the identity transform, the one
    [render] starts with, every rendered point (x, y, z) becomes
    (x, y, 0, 1).  Under the translation by a vector [d] of three finite
    doubles it becomes (x + d[0], y + d[1], 0, 1), and under the scaling by
    [d] it becomes (x * d[0], y * d[1], 0, 1), provided the three moved
    coordinates of every rendered point are finite as well (no overflow:
    an infinite coordinate, the dropped z included, would turn into NaN in
    the projection). *)
Theorem toCoords_doubles :
  forall shape : @Shape.Shape jsnum,
    Spec.points_are_Vector3 (Drawing.renderShape shape) ->
    Forall2
      (fun out sub =>
         SpecAlgebra.mat_strict_eq out
           (map (fun p => [Vec.at_ 0 p; Vec.at_ 1 p; n0; n1]) sub) = true)
      (Drawing.toCoords shape Mat.identity)
      (Drawing.renderShape shape) /\
    (forall d : @Vec.Vec jsnum,
        length d = 3 -> Forall (fun x => isFinite x = true) d ->
        Forall (Forall (fun p =>
                  isFinite (nadd (Vec.at_ 0 p) (Vec.at_ 0 d)) = true /\
                  isFinite (nadd (Vec.at_ 1 p) (Vec.at_ 1 d)) = true /\
                  isFinite (nadd (Vec.at_ 2 p) (Vec.at_ 2 d)) = true))
               (Drawing.renderShape shape) ->
        Forall2
          (fun out sub =>
             SpecAlgebra.mat_strict_eq out
               (map (fun p => [nadd (Vec.at_ 0 p) (Vec.at_ 0 d);
                               nadd (Vec.at_ 1 p) (Vec.at_ 1 d); n0; n1])
                    sub) = true)
          (Drawing.toCoords shape (Mat.translate d))
          (Drawing.renderShape shape)) /\
    (forall d : @Vec.Vec jsnum,
        length d = 3 -> Forall (fun x => isFinite x = true) d ->
        Forall (Forall (fun p =>
                  isFinite (nmul (Vec.at_ 0 p) (Vec.at_ 0 d)) = true /\
                  isFinite (nmul (Vec.at_ 1 p) (Vec.at_ 1 d)) = true /\
                  isFinite (nmul (Vec.at_ 2 p) (Vec.at_ 2 d)) = true))
               (Drawing.renderShape shape) ->
        Forall2
          (fun out sub =>
             SpecAlgebra.mat_strict_eq out
               (map (fun p => [nmul (Vec.at_ 0 p) (Vec.at_ 0 d);
                               nmul (Vec.at_ 1 p) (Vec.at_ 1 d); n0; n1])
                    sub) = true)
          (Drawing.toCoords shape (Mat.scale d))
          (Drawing.renderShape shape)).
Proof.
  intros shape V.
  destruct (renderShape_invariants shape) as [_ FIN].
  unfold Spec.points_are_Vector3 in V. unfold SpecRender.points_finite in FIN.
  assert (VF : Forall (Forall (fun p => length p = 3 /\
                                        Path3D.isPointFinite p = true))
                      (Drawing.renderShape shape)).
  { rewrite Forall_forall in *. intros sub Hs.
    specialize (V sub Hs). specialize (FIN sub Hs).
    rewrite Forall_forall in *. intros p Hp. split; [now apply V | now apply FIN]. }
  clear V FIN. split; [| split].
  - apply toCoords_pointwise with
      (G := fun p => [Vec.at_ 0 p; Vec.at_ 1 p; n0; n1]).
    rewrite Forall_forall in *. intros sub Hs. specialize (VF sub Hs).
    rewrite Forall_forall in *. intros p Hp.
    destruct (VF p Hp) as [L F]. now apply point_to_coords_identity.
  - intros d Ld Fd S.
    apply toCoords_pointwise with
      (G := fun p => [nadd (Vec.at_ 0 p) (Vec.at_ 0 d);
                      nadd (Vec.at_ 1 p) (Vec.at_ 1 d); n0; n1]).
    rewrite Forall_forall in VF, S |- *. intros sub Hs.
    specialize (VF sub Hs). specialize (S sub Hs).
    rewrite Forall_forall in VF, S |- *. intros p Hp.
    destruct (VF p Hp) as [L F]. destruct (S p Hp) as (S0 & S1 & S2).
    now apply point_to_coords_translate.
  - intros d Ld Fd S.
    apply toCoords_pointwise with
      (G := fun p => [nmul (Vec.at_ 0 p) (Vec.at_ 0 d);
                      nmul (Vec.at_ 1 p) (Vec.at_ 1 d); n0; n1]).
    rewrite Forall_forall in VF, S |- *. intros sub Hs.
    specialize (VF sub Hs). specialize (S sub Hs).
    rewrite Forall_forall in VF, S |- *. intros p Hp.
    destruct (VF p Hp) as [L F]. destruct (S p Hp) as (S0 & S1 & S2).
    now apply point_to_coords_scale.
Qed.

Lemma toCoords_doubles_witness :
  Forall2
    (fun out sub =>
       SpecAlgebra.mat_strict_eq out
         (map (fun p => [nadd (Vec.at_ 0 p) (Num 0.1);
                         nadd (Vec.at_ 1 p) (Num (-20)); n0; n1])
              sub) = true)
    (Drawing.toCoords (Shape.PathShape (Shape.mkPath true unit_square))
                      (Mat.translate [Num 0.1; Num (-20); Num 30]))
    (Drawing.renderShape (Shape.PathShape (Shape.mkPath true unit_square))).
Proof.
  apply (proj1 (proj2
           (toCoords_doubles
              (Shape.PathShape (Shape.mkPath true unit_square))
              ltac:(vm_compute; repeat constructor)))
           [Num 0.1; Num (-20); Num 30] eq_refl
           ltac:(repeat constructor)
           ltac:(vm_compute; repeat constructor))%float.
Defined.
